(** * embee: the generation engine of [src/engine.cpp]

    A shallow embedding of [Engine::Impl]: the sampling policy
    ([apply_repetition_penalty], [sample_token]) and the decode loop
    ([generate_with_callback], [generate]).

    - [float] is IEEE binary32, taken from the Standard Library's
      [SpecFloat] at precision 24 and maximal exponent 128.
    - [std::exp], [std::sort], [std::mt19937] and the two distributions are
      library code: they are interfaces here ([Libm], [StdAlgorithm] with
      [SortLaws], [StdRandom]).
    - [std::random_device] is the only ambient input: its successive
      outputs are an explicit stream ([Entropy]).
    - A call returns, ends with an exception, or has undefined behaviour
      ([Outcome]).  The exceptions are those of [std::vector::resize]:
      [max_size()] and what the allocator provides are parameters
      ([StdVector]).  The other allocations of a call (the token vector,
      the strings, the vectors of [sample_token]) are taken to succeed.
      The model stops at the exception: what a call that throws leaves of
      the engine is not part of it. *)

From Stdlib Require Import ZArith NArith List Bool Ascii String Lia Sorted.
From Stdlib Require Import Floats.SpecFloat.
From stdpp Require Import base list strings gmap pretty.

Local Open Scope nat_scope.

(** ** binary32 *)

Module F32.
Definition prec : Z := 24.
Definition emax : Z := 128.

Definition float : Type := spec_float.

Definition zero : float := S754_zero false.
Definition one : float := SFone prec emax.
Definition nan : float := S754_nan.

(** The binary32 value nearest to [m * 2^e]. *)
Definition lit (m e : Z) : float := binary_normalize prec emax m e false.

Definition add : float -> float -> float := SFadd prec emax.
Definition sub : float -> float -> float := SFsub prec emax.
Definition mul : float -> float -> float := SFmul prec emax.
Definition div : float -> float -> float := SFdiv prec emax.

Definition ltb : float -> float -> bool := SFltb.
Definition leb : float -> float -> bool := SFleb.
Definition eqb : float -> float -> bool := SFeqb.
Definition gtb (x y : float) : bool := ltb y x.
Definition geb (x y : float) : bool := leb y x.
Definition neb (x y : float) : bool := negb (eqb x y).

(** The literal [1e-6f]. *)
Definition lit_1e_6 : float := Eval vm_compute in lit 8796093 (-43).
End F32.

#[global] Instance float_inhabited : Inhabited F32.float := populate F32.zero.

(** ** Tokens ([types.h]) *)

(** [using TokenId = int32_t]. *)
Definition TokenId : Type := Z.
Definition TokenVector : Type := list TokenId.

(** [static_cast<TokenId>(i)] for a [size_t] [i]: reduction modulo [2^32]
    into the signed range. *)
Definition to_TokenId (i : nat) : TokenId :=
  ((Z.of_nat i + 2 ^ 31) mod 2 ^ 32 - 2 ^ 31)%Z.

(** ** Exceptions *)

(** The exceptions that leave the code: the two it throws itself, with
    their messages, and the two that come out of [std::vector::resize],
    whose messages are the library's. *)
Inductive Exception :=
  | runtime_error (what : string)
  | out_of_range (what : string)
  | length_error
  | bad_alloc.

Inductive Result (A : Type) :=
  | Ok (value : A)
  | Throw (e : Exception).
Arguments Ok {A}.
Arguments Throw {A}.

#[global] Instance Result_fmap : FMap Result := fun A B f r =>
  match r with
  | Ok a => Ok (f a)
  | Throw e => Throw e
  end.

#[global] Instance Result_bind : MBind Result := fun A B f r =>
  match r with
  | Ok a => f a
  | Throw e => Throw e
  end.

(** How a call into the engine ends: it returns, an exception leaves it,
    or its behaviour is undefined. *)
Inductive Outcome (A : Type) :=
  | Returns (value : A)
  | Throws (e : Exception)
  | Undefined.
Arguments Returns {A}.
Arguments Throws {A}.
Arguments Undefined {A}.

#[global] Instance Outcome_fmap : FMap Outcome := fun A B f r =>
  match r with
  | Returns a => Returns (f a)
  | Throws e => Throws e
  | Undefined => Undefined
  end.

(** ** Library interfaces *)

(** [<cmath>]. *)
Class Libm := { expf : F32.float -> F32.float }.

Definition incomparable (comp : nat -> nat -> bool) (a b : nat) : bool :=
  negb (comp a b) && negb (comp b a).

(** The requirement [std::sort] puts on its comparison, checked on the
    elements of the range: irreflexive, transitive, and with a transitive
    incomparability. *)
Definition strict_weak_order_on (comp : nat -> nat -> bool) (l : list nat) : bool :=
  forallb (fun a => negb (comp a a)) l &&
  forallb (fun a => forallb (fun b => forallb (fun c =>
    implb (comp a b && comp b c) (comp a c) &&
    implb (incomparable comp a b && incomparable comp b c)
          (incomparable comp a c)) l) l) l.

(** [<algorithm>]: [std::sort] on a vector of indices, with its
    comparison. *)
Class StdAlgorithm := {
  sort : (nat -> nat -> bool) -> list nat -> list nat
}.

(** What is known of [std::sort].  The order of equivalent elements is
    unspecified, so [sort] is any function with these two guarantees: the
    range is rearranged, whatever the comparison; and it is ordered when
    the comparison is a strict weak ordering on its elements. *)
Class SortLaws `{StdAlgorithm} : Prop := {
  sort_permutation : forall comp l, Permutation l (sort comp l);
  sort_ordered : forall comp l,
    strict_weak_order_on comp l = true ->
    forall i j a b, i < j ->
      sort comp l !! i = Some a -> sort comp l !! j = Some b ->
      comp b a = false
}.

(** [<random>]: the engine [std::mt19937] and the two distributions used.
    A distribution call returns the variate and the advanced engine;
    [std::normal_distribution] also has a state of its own. *)
Class StdRandom := {
  mt19937 : Type;
  mt19937_seed : Z -> mt19937;
  uniform_real_distribution :
    F32.float -> F32.float -> mt19937 -> F32.float * mt19937;
  normal_distribution : Type;
  normal_distribution_init : F32.float -> F32.float -> normal_distribution;
  normal_distribution_draw :
    normal_distribution -> mt19937 -> F32.float * normal_distribution * mt19937
}.

(** [std::random_device]: the values its successive calls return. *)
Definition Entropy : Type := nat -> Z.

Definition random_device (w : Entropy) : Z * Entropy :=
  (w 0, fun n => w (S n)).

(** [<vector>] and the allocator behind it, for the two vector types the
    engine resizes: [std::vector<float>] and
    [std::vector<std::vector<float>>].  [max_size()] is the
    implementation's (libstdc++ has [PTRDIFF_MAX / sizeof(T)]).  Beyond it
    [resize] throws [std::length_error]; within it, [resize] throws
    [std::bad_alloc] when the allocator cannot provide the storage.  What
    the allocator can provide is a property of the machine; it is taken
    here as a bound on the length of one vector that does not change
    during a run. *)
Class StdVector := {
  max_size_float : N;
  max_size_row : N;
  heap_float : N;
  heap_row : N
}.

(** ** Tokenizer and model ([tokenizer.h], [model.h]) *)

Record Tokenizer := {
  encode : string -> TokenVector;
  decode : TokenVector -> string;
  vocab_size : N;
  bos_token : option TokenId;
  eos_token : option TokenId;
  pad_token : option TokenId
}.

Record ModelConfig := {
  n_vocab : N;
  n_embd : N;
  n_layers : N;
  n_heads : N;
  n_kv_heads : N;
  max_seq_len : N
}.

Record Model := {
  config : ModelConfig;
  tokenizer : Tokenizer
}.

(** ** Generation configuration ([engine.h]) *)

Record GenerationConfig := {
  max_length : N;
  temperature : F32.float;
  top_p : F32.float;
  repetition_penalty : F32.float;
  batch_size : N;
  use_cache : bool
}.

(** ** Sampling policy *)

(** The penalty applied to one slot (lines 200-204). *)
Definition penalize (penalty x : F32.float) : F32.float :=
  if F32.gtb x F32.zero then F32.div x penalty else F32.mul x penalty.

(** One iteration of the loop of [apply_repetition_penalty]. *)
Definition penalize_token (penalty : F32.float)
    (logits : list F32.float) (token : TokenId) : list F32.float :=
  if (0 <=? token)%Z && (Z.to_nat token <? length logits)
  then <[Z.to_nat token := penalize penalty (logits !!! Z.to_nat token)]> logits
  else logits.

Definition apply_repetition_penalty (logits : list F32.float)
    (tokens : TokenVector) (penalty : F32.float) : list F32.float :=
  fold_left (penalize_token penalty) tokens logits.

(** Lines 68-78 of the decode loop: temperature, then repetition penalty. *)
Definition scale_temperature (cfg : GenerationConfig)
    (logits : list F32.float) : list F32.float :=
  if F32.gtb (temperature cfg) F32.zero
  then map (fun logit => F32.div logit (temperature cfg)) logits
  else logits.

Definition adjust_logits (cfg : GenerationConfig) (tokens : TokenVector)
    (logits : list F32.float) : list F32.float :=
  let logits := scale_temperature cfg logits in
  if F32.neb (repetition_penalty cfg) F32.one
  then apply_repetition_penalty logits tokens (repetition_penalty cfg)
  else logits.

(** [std::max_element] with [operator<]: the index of the first element
    that no later element exceeds; [None] on an empty range, where the
    C++ returns [end()]. *)
Fixpoint max_element_from (best_i : nat) (best : F32.float) (i : nat)
    (rest : list F32.float) : nat :=
  match rest with
  | [] => best_i
  | x :: rest' =>
      if F32.ltb best x then max_element_from i x (S i) rest'
      else max_element_from best_i best (S i) rest'
  end.

Definition max_element (v : list F32.float) : option nat :=
  match v with
  | [] => None
  | x :: rest => Some (max_element_from 0 x 1 rest)
  end.

(** The comparison handed to [std::sort]: [probs[a] > probs[b]]. *)
Definition prob_greater (probs : list F32.float) (a b : nat) : bool :=
  F32.gtb (probs !!! a) (probs !!! b).

(** The loop of lines 245-251, from position [i] with running sum [cumsum]:
    the first position where the sum reaches [top_p]. *)
Fixpoint cutoff_scan (probs : list F32.float) (top_p : F32.float)
    (rest : list nat) (i : nat) (cumsum : F32.float) : option nat :=
  match rest with
  | [] => None
  | a :: rest' =>
      let cumsum := F32.add cumsum (probs !!! a) in
      if F32.geb cumsum top_p then Some i
      else cutoff_scan probs top_p rest' (S i) cumsum
  end.

Definition find_cutoff (probs : list F32.float) (top_p : F32.float)
    (indices : list nat) : nat :=
  default (length indices - 1) (cutoff_scan probs top_p indices 0 F32.zero).

(** The sum [0 + probs[indices[0]] + ... ] over the first [k] sorted
    positions, accumulated left to right as the C++ loops do. *)
Definition prefix_sum (probs : list F32.float) (indices : list nat)
    (k : nat) : F32.float :=
  fold_left (fun acc a => F32.add acc (probs !!! a)) (take k indices) F32.zero.

(** The loop of lines 264-269 over the nucleus. *)
Fixpoint cdf_scan (probs : list F32.float) (r : F32.float)
    (rest : list nat) (cdf : F32.float) : option nat :=
  match rest with
  | [] => None
  | a :: rest' =>
      let cdf := F32.add cdf (probs !!! a) in
      if F32.leb r cdf then Some a else cdf_scan probs r rest' cdf
  end.

Section Sampling.
Context `{Libm, StdAlgorithm, StdRandom}.

(** Lines 212-225. *)
Definition softmax (logits : list F32.float) (max_logit : F32.float)
    : list F32.float :=
  let probs := map (fun logit => expf (F32.sub logit max_logit)) logits in
  let sum_exp := fold_left F32.add probs F32.zero in
  map (fun p => F32.div p sum_exp) probs.

Definition sorted_indices (probs : list F32.float) : list nat :=
  sort (prob_greater probs) (seq 0 (length probs)).

(** Lines 241-272, given the value [r] drawn. *)
Definition nucleus_pick (probs : list F32.float) (indices : list nat)
    (cutoff_idx : nat) (r : F32.float) : nat :=
  default (indices !!! 0)
          (cdf_scan probs r (take (S cutoff_idx) indices) F32.zero).

(** [sample_token].  On an empty score vector the C++ dereferences
    [end()]: no result. *)
Definition sample_token (logits : list F32.float) (top_p : F32.float)
    (gen : mt19937) : option (TokenId * mt19937) :=
  match max_element logits with
  | None => None
  | Some imax =>
      let max_logit := logits !!! imax in
      let probs := softmax logits max_logit in
      if F32.ltb top_p F32.lit_1e_6 then
        match max_element probs with
        | Some i => Some (to_TokenId i, gen)
        | None => None
        end
      else
        let indices := sorted_indices probs in
        let cutoff_idx := find_cutoff probs top_p indices in
        let norm_factor := prefix_sum probs indices (S cutoff_idx) in
        let '(r, gen) :=
          uniform_real_distribution F32.zero norm_factor gen in
        Some (to_TokenId (nucleus_pick probs indices cutoff_idx r), gen)
  end.
End Sampling.

(** ** Engine state ([Engine::Impl]) *)

(** [size_t] multiplication. *)
Definition size_mul (a b : N) : N := ((a * b) mod 2 ^ 64)%N.

(** [std::vector::resize(n)]: truncate, or extend with value-initialised
    elements.  It throws [std::length_error] when [n] exceeds
    [max_size()] and [std::bad_alloc] when the allocator does not provide
    [n] elements; the vector is then as it was.  (No vector is longer than
    either bound, so a call that does not extend is never refused.) *)
Definition resize {A : Type} (max_size heap : N) (n : N) (fill : A)
    (v : list A) : Result (list A) :=
  if (max_size <? n)%N then Throw length_error
  else if (heap <? n)%N then Throw bad_alloc
  else Ok (take (N.to_nat n) v ++ replicate (N.to_nat n - length v) fill).

Record Impl := {
  kv_cache_initialized_ : bool;
  head_size_ : N;
  last_logits_ : list F32.float;
  key_cache_ : list (list F32.float);
  value_cache_ : list (list F32.float)
}.

(** The constructor (lines 21-29).  [n_heads = 0] is a division by zero
    in the C++; [N.div] gives 0 there. *)
Definition Impl_new (model_ : Model) : Impl :=
  {| kv_cache_initialized_ := false;
     head_size_ := (n_embd (config model_) / n_heads (config model_))%N;
     last_logits_ := [];
     key_cache_ := [];
     value_cache_ := [] |}.

Definition set_last_logits (e : Impl) (logits : list F32.float) : Impl :=
  {| kv_cache_initialized_ := kv_cache_initialized_ e;
     head_size_ := head_size_ e;
     last_logits_ := logits;
     key_cache_ := key_cache_ e;
     value_cache_ := value_cache_ e |}.

Section Cache.
Context `{StdVector}.

(** The loop of lines 142-145, over the layers of the two caches, which
    have [n_layers] rows each by then: the row of the key cache, then the
    row of the value cache. *)
Fixpoint resize_layers (n : N) (key_cache value_cache : list (list F32.float))
    : Result (list (list F32.float) * list (list F32.float)) :=
  match key_cache, value_cache with
  | key :: key_cache', value :: value_cache' =>
      key ← resize max_size_float heap_float n F32.zero key;
      value ← resize max_size_float heap_float n F32.zero value;
      '(key_cache', value_cache') ← resize_layers n key_cache' value_cache';
      Ok (key :: key_cache', value :: value_cache')
  | _, _ => Ok ([], [])
  end.

(** Lines 132-148: the two outer vectors are resized, then the rows.
    The flag is set only when every [resize] went through. *)
Definition initialize_kv_cache (model_ : Model) (e : Impl) (max_seq_len : N)
    : Result Impl :=
  key_cache ← resize max_size_row heap_row (n_layers (config model_)) []
                     (key_cache_ e);
  value_cache ← resize max_size_row heap_row (n_layers (config model_)) []
                       (value_cache_ e);
  let kv_dim := size_mul (n_kv_heads (config model_)) (head_size_ e) in
  '(key_cache, value_cache) ←
    resize_layers (size_mul max_seq_len kv_dim) key_cache value_cache;
  Ok {| kv_cache_initialized_ := true;
        head_size_ := head_size_ e;
        last_logits_ := last_logits_ e;
        key_cache_ := key_cache;
        value_cache_ := value_cache |}.
End Cache.

(** The forward-pass calls and the callback invocations of one call are
    recorded in the order they are made.  Neither list exists in the C++;
    they are the trace the statements below speak about. *)
Inductive ForwardCall :=
  | Prime (tokens : TokenVector)
  | Step (token : TokenId) (position : nat).

(** How the [while] loop of [generate_with_callback] was left: its
    condition failed, the [break] of line 86, or the [break] of line 100.
    The C++ function returns [void]; the tag is part of the trace. *)
Inductive Exit := Exhausted | Stopped | Cancelled.

(** [Engine::TokenCallback], with the state the closure captures. *)
Definition TokenCallback (CB : Type) : Type :=
  CB -> TokenId -> string -> bool * CB.

Section Engine.
Context `{Libm, StdAlgorithm, StdRandom, StdVector}.
Variable model_ : Model.

(** The loop shared by the two placeholder forward passes (lines 163-165
    and 182-184): one draw from a standard normal distribution for each
    of the [n] elements of [last_logits_]. *)
Fixpoint fill_normal (n : nat) (dist : normal_distribution)
    (gen : mt19937) : list F32.float :=
  match n with
  | O => []
  | S n' =>
      let '(logit, dist, gen) := normal_distribution_draw dist gen in
      logit :: fill_normal n' dist gen
  end.

(** The body shared by the two placeholder forward passes (lines 156-166
    and 175-185): [last_logits_] is resized to [n_vocab], then
    overwritten. *)
Definition random_logits (e : Impl) (w : Entropy)
    : Result (list F32.float * Entropy) :=
  logits ← resize max_size_float heap_float (n_vocab (config model_))
                  F32.zero (last_logits_ e);
  let '(seed, w) := random_device w in
  Ok (fill_normal (length logits)
                  (normal_distribution_init F32.zero F32.one)
                  (mt19937_seed seed), w).

Definition process_tokens (e : Impl) (tokens : TokenVector) (w : Entropy)
    : Result (Impl * Entropy) :=
  '(logits, w) ← random_logits e w; Ok (set_last_logits e logits, w).

Definition process_single_token (e : Impl) (token : TokenId)
    (position : nat) (w : Entropy) : Result (Impl * Entropy) :=
  '(logits, w) ← random_logits e w; Ok (set_last_logits e logits, w).

Definition get_next_token_logits (e : Impl) : list F32.float :=
  last_logits_ e.

Record Decoding (CB : Type) := {
  tokens : TokenVector;
  engine : Impl;
  gen : mt19937;
  callback_state : CB;
  emitted : list (TokenId * string);
  forward_calls : list ForwardCall
}.
Arguments tokens {CB}.
Arguments engine {CB}.
Arguments gen {CB}.
Arguments callback_state {CB}.
Arguments emitted {CB}.
Arguments forward_calls {CB}.

Definition is_eos (next_token : TokenId) : bool :=
  match eos_token (tokenizer model_) with
  | Some eos => (next_token =? eos)%Z
  | None => false
  end.

(** The [while] loop of lines 64-104.  [remaining] is
    [max_length - generated_count].  Sampling from an empty score vector
    dereferences [end()] (line 215). *)
Fixpoint decode_loop {CB : Type} (config : GenerationConfig)
    (callback : TokenCallback CB) (remaining : nat)
    (st : Decoding CB) (w : Entropy) : Outcome (Exit * Decoding CB) :=
  match remaining with
  | O => Returns (Exhausted, st)
  | S remaining' =>
      let logits := get_next_token_logits (engine st) in
      let logits := adjust_logits config (tokens st) logits in
      match sample_token logits (top_p config) (gen st) with
      | None => Undefined
      | Some (next_token, gen') =>
          if is_eos next_token then
            Returns (Stopped,
                     {| tokens := tokens st; engine := engine st; gen := gen';
                        callback_state := callback_state st;
                        emitted := emitted st;
                        forward_calls := forward_calls st |})
          else
            let tokens' := tokens st ++ [next_token] in
            match process_single_token (engine st) next_token
                                       (length tokens' - 1) w with
            | Throw ex => Throws ex
            | Ok (engine', w') =>
                let token_text := decode (tokenizer model_) [next_token] in
                let '(continue, cb') :=
                  callback (callback_state st) next_token token_text in
                let st' :=
                  {| tokens := tokens'; engine := engine'; gen := gen';
                     callback_state := cb';
                     emitted := emitted st ++ [(next_token, token_text)];
                     forward_calls :=
                       forward_calls st
                         ++ [Step next_token (length tokens' - 1)] |} in
                if continue then decode_loop config callback remaining' st' w'
                else Returns (Cancelled, st')
            end
      end
  end.

(** The engine as the loop finds it: cache (re)initialised if needed
    (lines 49-51). *)
Definition prepare_cache (e : Impl) (config : GenerationConfig)
    : Result Impl :=
  if negb (kv_cache_initialized_ e) || negb (use_cache config)
  then initialize_kv_cache model_ e (max_length config)
  else Ok e.

(** Lines 43-105. *)
Definition generate_with_callback {CB : Type} (e : Impl) (prompt : string)
    (callback : TokenCallback CB) (cb0 : CB) (config : GenerationConfig)
    (w : Entropy) : Outcome (Exit * Decoding CB) :=
  let tokens0 := encode (tokenizer model_) prompt in
  match prepare_cache e config with
  | Throw ex => Throws ex
  | Ok e =>
      let '(seed, w) := random_device w in
      let gen0 := mt19937_seed seed in
      match process_tokens e tokens0 w with
      | Throw ex => Throws ex
      | Ok (e, w) =>
          decode_loop config callback (N.to_nat (max_length config))
            {| tokens := tokens0; engine := e; gen := gen0;
               callback_state := cb0; emitted := [];
               forward_calls := [Prime tokens0] |} w
      end
  end.

(** The closure of lines 34-37: it appends to [result] and continues. *)
Definition append_text : TokenCallback string :=
  fun result _ text => (true, result +:+ text).

(** Lines 31-41: the returned string, with the engine as the call
    leaves it. *)
Definition generate (e : Impl) (prompt : string)
    (config : GenerationConfig) (w : Entropy) : Outcome (string * Impl) :=
  (fun r => (callback_state r.2, engine r.2))
    <$> generate_with_callback e prompt append_text prompt config w.

(** Lines 107-116. *)
Definition get_logits (e : Impl) (prompt : string) (w : Entropy)
    : Result (list F32.float * Impl) :=
  '(e, _) ← process_tokens e (encode (tokenizer model_) prompt) w;
  Ok (last_logits_ e, e).
End Engine.

Arguments tokens {_ _}.
Arguments engine {_ _}.
Arguments gen {_ _}.
Arguments callback_state {_ _}.
Arguments emitted {_ _}.
Arguments forward_calls {_ _}.

(** ** Definitions used by the statements *)

(** The rule in the words of the specification: a positive value is
    divided by the penalty, a non-positive one is multiplied by it.  A NaN
    is neither, and is NaN already. *)
Definition penalty_rule (penalty x : F32.float) : F32.float :=
  if F32.gtb x F32.zero then F32.div x penalty
  else if F32.leb x F32.zero then F32.mul x penalty
  else x.

(** No element stands after one it should precede. *)
Definition ordered_by (comp : nat -> nat -> bool) : list nat -> Prop :=
  StronglySorted (fun a b => comp b a = false).

(** The running sum of a scan that starts with [acc], after [k] elements. *)
Definition running_sum (probs : list F32.float) (l : list nat)
    (acc : F32.float) (k : nat) : F32.float :=
  fold_left (fun acc a => F32.add acc (probs !!! a)) (take k l) acc.

(** The text fragments of a list of callback invocations, concatenated in
    the order of emission. *)
Definition fragments (events : list (TokenId * string)) : string :=
  foldr (fun ev acc => ev.2 +:+ acc) EmptyString events.

(** The single-token forward passes made for a list of emitted tokens, the
    first of them at [position]. *)
Fixpoint step_calls (position : nat) (events : list (TokenId * string))
    : list ForwardCall :=
  match events with
  | [] => []
  | ev :: rest => Step ev.1 position :: step_calls (S position) rest
  end.

Section Statements.
Context `{Libm, StdAlgorithm, StdRandom, StdVector}.

(** What [sample_token] does past the [top_p < 1e-6] test, on a score
    vector whose [std::max_element] is at [imax]. *)
Definition nucleus_sampling_spec (logits : list F32.float)
    (top_p : F32.float) (gen : mt19937) (imax : nat) : Prop :=
  let max_logit := logits !!! imax in
  let exps := map (fun logit => expf (F32.sub logit max_logit)) logits in
  let sum_exp := fold_left F32.add exps F32.zero in
  let probs := softmax logits max_logit in
  let indices := sorted_indices probs in
  let cum := fun k => prefix_sum probs indices (S k) in
  let c := find_cutoff probs top_p indices in
  let draw := uniform_real_distribution F32.zero (cum c) gen in
  let descending :=
    forall i j a b, i < j -> indices !! i = Some a -> indices !! j = Some b ->
      F32.gtb (probs !!! b) (probs !!! a) = false in
  (* the softmax subtracts a score that no score exceeds, then
     exponentiates, sums and divides *)
  logits !! imax = Some max_logit /\
  (forall logit, logit ∈ logits -> F32.ltb max_logit logit = false) /\
  (forall i logit, logits !! i = Some logit ->
     probs !! i = Some (F32.div (expf (F32.sub logit max_logit)) sum_exp)) /\
  (* the indices, by descending probability: when the comparison is the
     strict weak ordering [std::sort] asks for, as it is when no
     probability is NaN *)
  Permutation (seq 0 (length logits)) indices /\
  (strict_weak_order_on (prob_greater probs) (seq 0 (length logits)) = true ->
   descending) /\
  (Forall (fun p => p <> F32.nan) probs -> descending) /\
  (* the nucleus: positions [0..c], the shortest prefix reaching [top_p];
     everything when no prefix reaches it *)
  c < length logits /\
  (forall k, k < c -> F32.geb (cum k) top_p = false) /\
  (F32.geb (cum c) top_p = true \/
   c = length logits - 1 /\
   forall k, k < length logits -> F32.geb (cum k) top_p = false) /\
  (* the draw, uniform on [0, sum of the nucleus), and the token *)
  exists t,
    sample_token logits top_p gen = Some (to_TokenId t, draw.2) /\
    ((exists k, k <= c /\ indices !! k = Some t /\
        F32.leb draw.1 (cum k) = true /\
        forall j, j < k -> F32.leb draw.1 (cum j) = false) \/
     ((forall k, k <= c -> F32.leb draw.1 (cum k) = false) /\
      indices !! 0 = Some t)).

Definition argmax_shortcut_spec (logits : list F32.float)
    (top_p : F32.float) (gen : mt19937) (imax : nat) : Prop :=
  let probs := softmax logits (logits !!! imax) in
  let indices := sorted_indices probs in
  let c := find_cutoff probs top_p indices in
  let draw :=
    uniform_real_distribution F32.zero (prefix_sum probs indices (S c)) gen in
  (F32.ltb top_p F32.lit_1e_6 = true ->
   exists i, max_element probs = Some i /\
     sample_token logits top_p gen = Some (to_TokenId i, gen)) /\
  (F32.ltb top_p F32.lit_1e_6 = false ->
   sample_token logits top_p gen =
     Some (to_TokenId (nucleus_pick probs indices c draw.1), draw.2)) /\
  F32.ltb F32.one F32.lit_1e_6 = false.

(** The vector [resize(n)] leaves when it goes through. *)
Definition resized {A : Type} (n : N) (fill : A) (v : list A) : list A :=
  take (N.to_nat n) v ++ replicate (N.to_nat n - length v) fill.

(** The exception [resize] ends with when it is asked for [n] elements,
    if any. *)
Definition resize_refusal (max_size heap n : N) : option Exception :=
  if (max_size <? n)%N then Some length_error
  else if (heap <? n)%N then Some bad_alloc
  else None.

(** The exception lines 49-51 end with, if any.  The cache is
    (re)initialised when the flag is unset or [use_cache] is false: the
    two outer vectors are given [n_layers] rows, then, when there is a
    layer, each row its [max_length * kv_dim] floats. *)
Definition cache_refusal (model_ : Model) (e : Impl)
    (cfg : GenerationConfig) : option Exception :=
  if negb (kv_cache_initialized_ e) || negb (use_cache cfg) then
    match resize_refusal max_size_row heap_row (n_layers (config model_)) with
    | Some ex => Some ex
    | None =>
        if (0 <? n_layers (config model_))%N then
          resize_refusal max_size_float heap_float
            (size_mul (max_length cfg)
                      (size_mul (n_kv_heads (config model_)) (head_size_ e)))
        else None
    end
  else None.

(** The exception a forward pass ends with, if any: [last_logits_] is
    given [n_vocab] floats. *)
Definition logits_refusal (model_ : Model) : option Exception :=
  resize_refusal max_size_float heap_float (n_vocab (config model_)).

(** The state of the loop run with the closure of [generate], as a
    function of the state of the loop run with another callback. *)
Definition accumulated {CB : Type} (prompt : string) (st : Decoding CB)
    : Decoding string :=
  {| tokens := tokens st; engine := engine st; gen := gen st;
     callback_state := prompt +:+ fragments (emitted st);
     emitted := emitted st; forward_calls := forward_calls st |}.

End Statements.

(** ** Instances of the library interfaces, for running the model

    [Scripted] fixes small, computable instances: an [expf] known at the
    arguments the examples use, an insertion sort (which keeps equivalent
    elements in their original order), and a random engine that replays a
    script: the engine seeded with [s] makes the successive distribution
    calls return the canonical variates [script s], scaled to the range of
    the distribution. *)

Module Scripted.
Definition minus_one : F32.float := Eval vm_compute in F32.lit (-1) 0.

(** [e^0 = 1], [e^-1 = 0.36787945f], [e^-inf = 0]; NaN at the arguments
    the examples never reach. *)
Definition expf_table (x : F32.float) : F32.float :=
  match x with
  | S754_zero _ => F32.one
  | S754_infinity true => F32.zero
  | S754_infinity false => S754_infinity false
  | S754_nan => F32.nan
  | S754_finite _ _ _ =>
      if F32.eqb x minus_one then F32.lit 12343986 (-25) else F32.nan
  end.

Fixpoint insert_sorted (comp : nat -> nat -> bool) (x : nat)
    (l : list nat) : list nat :=
  match l with
  | [] => [x]
  | y :: l' => if comp y x then y :: insert_sorted comp x l' else x :: l
  end.

Definition insertion_sort (comp : nat -> nat -> bool) (l : list nat)
    : list nat :=
  foldr (insert_sorted comp) [] l.

Definition replay_uniform (a b : F32.float) (g : list F32.float)
    : F32.float * list F32.float :=
  match g with
  | [] => (a, [])
  | u :: g' => (F32.add (F32.mul u (F32.sub b a)) a, g')
  end.

Definition replay_normal (d : unit) (g : list F32.float)
    : F32.float * unit * list F32.float :=
  match g with
  | [] => (F32.zero, d, [])
  | x :: g' => (x, d, g')
  end.
End Scripted.

Definition scripted_libm : Libm := {| expf := Scripted.expf_table |}.

Definition scripted_algorithm : StdAlgorithm :=
  {| sort := Scripted.insertion_sort |}.

Definition scripted_random (script : Z -> list F32.float) : StdRandom :=
  {| mt19937 := list F32.float;
     mt19937_seed := script;
     uniform_real_distribution := Scripted.replay_uniform;
     normal_distribution := unit;
     normal_distribution_init := fun _ _ => tt;
     normal_distribution_draw := Scripted.replay_normal |}.

(** A 64-bit libstdc++: [max_size()] is [PTRDIFF_MAX / sizeof(T)], with
    [sizeof(float) = 4] and [sizeof(std::vector<float>) = 24]; the
    allocator provides one gibibyte to a vector. *)
Definition lp64_vector : StdVector :=
  {| max_size_float := 2305843009213693951;
     max_size_row := 384307168202282325;
     heap_float := 268435456;
     heap_row := 44739242 |}.

Definition f0_9 : F32.float := Eval vm_compute in F32.lit 15099494 (-24).

Definition f0_5 : F32.float := Eval vm_compute in F32.lit 1 (-1).

(** ** A two-token model, for running whole calls *)

Module Tiny.
(** Token [t] is the letter of code [65 + t]: 0 is A, 1 is B. *)
Definition letters (eos : option TokenId) : Tokenizer :=
  {| encode := fun text =>
       map (fun c => (Z.of_nat (nat_of_ascii c) - 65)%Z)
           (list_ascii_of_string text);
     decode := fun toks =>
       string_of_list_ascii
         (map (fun t => ascii_of_nat (Z.to_nat (t + 65))) toks);
     vocab_size := 2;
     bos_token := None;
     eos_token := eos;
     pad_token := None |}.

Definition model (eos : option TokenId) : Model :=
  {| config := {| n_vocab := 2; n_embd := 4; n_layers := 1; n_heads := 2;
                  n_kv_heads := 1; max_seq_len := 8 |};
     tokenizer := letters eos |}.

(** The engines behind the seeds: seed 1 makes the forward pass return
    the scores [[1.0, 0.0]]; seeds 7 and 8 make every uniform draw fall
    at 0.9 and at 0.5 of its range. *)
Definition script (seed : Z) : list F32.float :=
  match seed with
  | 1%Z => [F32.one; F32.zero]
  | 7%Z => [f0_9; f0_9; f0_9; f0_9]
  | 8%Z => [f0_5; f0_5; f0_5; f0_5]
  | _ => []
  end.

Definition random : StdRandom := scripted_random script.

(** The random device that returns the listed values, then 1. *)
Definition device (values : list Z) : Entropy :=
  fun n => nth n values 1%Z.

Definition f1_1 : F32.float := Eval vm_compute in F32.lit 9227469 (-23).

Definition cfg (max_length : N) (temperature top_p : F32.float)
    : GenerationConfig :=
  {| max_length := max_length; temperature := temperature; top_p := top_p;
     repetition_penalty := f1_1; batch_size := 1; use_cache := true |}.

(** A streaming callback that collects the fragments and never stops. *)
Definition collect : TokenCallback (list string) :=
  fun seen _ text => (true, seen ++ [text]).

Definition run (eos : option TokenId) (prompt : string)
    (config : GenerationConfig) (values : list Z) :=
  @generate_with_callback scripted_libm scripted_algorithm random
    lp64_vector (model eos) (list string) (Impl_new (model eos)) prompt
    collect [] config (device values).

Definition text (eos : option TokenId) (prompt : string)
    (config : GenerationConfig) (values : list Z) : Outcome string :=
  fst <$> @generate scripted_libm scripted_algorithm random lp64_vector
            (model eos) (Impl_new (model eos)) prompt config (device values).

(** The loop about to sample from the scores [[1.0, 0.0]] with the
    engine of seed 7. *)
Definition before_eos : @Decoding random (list string) :=
  {| tokens := [7; 40]%Z;
     engine := set_last_logits (Impl_new (model (Some 1%Z)))
                               [F32.one; F32.zero];
     gen := mt19937_seed 7%Z;
     callback_state := [];
     emitted := [];
     forward_calls := [Prime [7; 40]%Z] |}.

(** The loop after one emitted token [B], with a cache of one position. *)
Definition after_one_token : @Decoding random (list string) :=
@Build_Decoding random (list string)
  [7; 40; 1]%Z
  {| kv_cache_initialized_ := true;
     head_size_ := 2;
     last_logits_ := [F32.one; F32.zero];
     key_cache_ := [[F32.zero; F32.zero]];
     value_cache_ := [[F32.zero; F32.zero]] |}
  [f0_9; f0_9; f0_9]
  ["B"]
  [(1%Z, "B")]
  [Prime [7; 40]%Z; Step 1%Z 2].
End Tiny.

(** ** Model loading ([model.h], [model.cpp]) *)

Module ModelArchitecture.
Inductive t := LLAMA | MISTRAL | GEMMA | PHI | FALCON | GPT2 | MPT | CUSTOM.
End ModelArchitecture.

Module QuantizationType.
Inductive t := NONE | INT8 | INT4 | INT5 | INT4_BLOCK | INT5_BLOCK | ADAPTIVE.
End QuantizationType.

Module ActivationFunction.
Inductive t := GELU | SILU | RELU | SWIGLU.
End ActivationFunction.

Module DataType.
Inductive t := FP32 | FP16 | BF16 | INT8 | INT4 | INT5.
End DataType.

(** [class Tensor] ([types.h]). *)
Module Tensor.
Record t := {
  shape : list N;
  data_type : DataType.t;
  data : list Byte.byte;
  name : string
}.
End Tensor.

(** [struct ModelConfig] with all its fields; [ModelConfig] above keeps
    the ones the engine reads. *)
Module Full.
Record ModelConfig := {
  n_vocab : N;
  n_embd : N;
  n_layers : N;
  n_heads : N;
  n_kv_heads : N;
  max_seq_len : N;
  is_rope : bool;
  architecture : ModelArchitecture.t;
  activation_function : ActivationFunction.t;
  rope_freq_base : F32.float;
  rope_scaling : F32.float;
  quant_type : QuantizationType.t;
  model_name : string;
  model_family : string;
  model_creator : string
}.
End Full.

Definition engine_config (c : Full.ModelConfig) : ModelConfig :=
  {| n_vocab := Full.n_vocab c;
     n_embd := Full.n_embd c;
     n_layers := Full.n_layers c;
     n_heads := Full.n_heads c;
     n_kv_heads := Full.n_kv_heads c;
     max_seq_len := Full.max_seq_len c |}.

(** The members of [class Model]. *)
Record ModelState := {
  config_ : Full.ModelConfig;
  weights_ : gmap string Tensor.t;
  tokenizer_ : Tokenizer
}.

(** The model as the engine sees it, through [config()] and
    [tokenizer()]. *)
Definition as_Model (m : ModelState) : Model :=
  {| config := engine_config (config_ m); tokenizer := tokenizer_ m |}.

(** *** [detect_format] *)

(** [std::string::find_last_of(ch)]: the last position of [ch]. *)
Fixpoint find_last_of (s : string) (ch : ascii) : option nat :=
  match s with
  | EmptyString => None
  | String c s' =>
      match find_last_of s' ch with
      | Some i => Some (S i)
      | None => if Ascii.eqb c ch then Some 0 else None
      end
  end.

(** [std::string::substr(pos)] for [pos <= size()]: the characters from
    [pos] on. *)
Fixpoint substr (s : string) (pos : nat) : string :=
  match pos, s with
  | O, _ => s
  | S pos', String _ s' => substr s' pos'
  | S _, EmptyString => EmptyString
  end.

(** [std::tolower] in the "C" locale, which is the one in force: no
    [setlocale] is called. *)
Definition tolower (c : ascii) : ascii :=
  let n := nat_of_ascii c in
  if (65 <=? n) && (n <=? 90) then ascii_of_nat (n + 32) else c.

Fixpoint transform (f : ascii -> ascii) (s : string) : string :=
  match s with
  | EmptyString => EmptyString
  | String c s' => String (f c) (transform f s')
  end.

(** The files that can be opened, with their bytes. *)
Definition FileSystem : Type := string -> option string.

(** Lines 36-45: the format named by the extension, if any. *)
Definition format_of_extension (path : string) : option string :=
  match find_last_of path "." with
  | Some dot_pos =>
      let ext := transform tolower (substr path (dot_pos + 1)) in
      if String.eqb ext "amb" then Some "amb"%string
      else if String.eqb ext "gguf" then Some "gguf"%string
      else if String.eqb ext "onnx" then Some "onnx"%string
      else None
  | None => None
  end.

(** The eight bytes [08 00 00 00 00 00 00 00]. *)
Definition onnx_magic : string :=
  String (ascii_of_nat 8) (string_of_list_ascii (replicate 7 Ascii.zero)).

(** Lines 53-74: [file.read(header, 8)] succeeds when the file has eight
    bytes; the magic numbers are compared with its first bytes. *)
Definition format_of_header (content : string) : string :=
  if 8 <=? String.length content then
    if String.prefix "GGUF" content then "gguf"
    else if String.prefix onnx_magic content then "onnx"
    else if String.prefix "AMBEE" content then "amb"
    else "amb"
  else "amb".

Definition detect_format (fs : FileSystem) (path : string) : Result string :=
  match format_of_extension path with
  | Some format => Ok format
  | None =>
      match fs path with
      | None => Throw (runtime_error ("Failed to open model file: " +:+ path))
      | Some content => Ok (format_of_header content)
      end
  end.

(** *** The dummy tokenizer of [load_amb_model] *)

Section Loading.
(** Whether [char] is a signed type is up to the platform. *)
Variable char_is_signed : bool.

(** [static_cast<TokenId>(c)]. *)
Definition TokenId_of_char (c : ascii) : TokenId :=
  let n := Z.of_nat (nat_of_ascii c) in
  if char_is_signed && (128 <=? n)%Z then (n - 256)%Z else n.

(** [static_cast<char>(token)]: the low eight bits. *)
Definition char_of_TokenId (token : TokenId) : ascii :=
  ascii_of_nat (Z.to_nat (token mod 256)).

Definition DummyTokenizer : Tokenizer :=
  {| encode := fun text => map TokenId_of_char (list_ascii_of_string text);
     decode := fun tokens => string_of_list_ascii (map char_of_TokenId tokens);
     vocab_size := 256;
     bos_token := Some 1%Z;
     eos_token := Some 2%Z;
     pad_token := Some 0%Z |}.

(** *** [load_amb_model] *)

Definition amb_config : Full.ModelConfig :=
  {| Full.n_vocab := 32000;
     Full.n_embd := 2048;
     Full.n_layers := 24;
     Full.n_heads := 16;
     Full.n_kv_heads := 16;
     Full.max_seq_len := 2048;
     Full.is_rope := true;
     Full.architecture := ModelArchitecture.PHI;
     Full.activation_function := ActivationFunction.SILU;
     Full.rope_freq_base := F32.lit 10000 0;
     Full.rope_scaling := F32.one;
     Full.quant_type := QuantizationType.NONE;
     Full.model_name := "phi-3-mini-4bit-dummy";
     Full.model_family := "Phi";
     Full.model_creator := "Microsoft" |}.

Definition sizeof_float : N := 4.

(** [data.resize(n, 0)] on an empty vector. *)
Definition zero_bytes (n : N) : list Byte.byte :=
  replicate (N.to_nat n) Byte.x00.
Arguments zero_bytes : simpl never.

Definition embedding_tensor (c : Full.ModelConfig) : Tensor.t :=
  {| Tensor.name := "transformer.wte.weight";
     Tensor.shape := [Full.n_vocab c; Full.n_embd c];
     Tensor.data_type := DataType.FP32;
     Tensor.data :=
       zero_bytes (size_mul (size_mul (Full.n_vocab c) (Full.n_embd c))
                            sizeof_float) |}.

(** [std::to_string(i)] for a [size_t]. *)
Definition to_string (i : nat) : string := pretty (N.of_nat i).

Definition attn_w (c : Full.ModelConfig) (i : nat) : Tensor.t :=
  {| Tensor.name := "transformer.h." +:+ to_string i +:+ ".attn.c_attn.weight";
     Tensor.shape := [Full.n_embd c; size_mul 3 (Full.n_embd c)];
     Tensor.data_type := DataType.FP32;
     Tensor.data :=
       zero_bytes (size_mul (size_mul (size_mul (Full.n_embd c) 3)
                                      (Full.n_embd c)) sizeof_float) |}.

Definition attn_b (c : Full.ModelConfig) (i : nat) : Tensor.t :=
  {| Tensor.name := "transformer.h." +:+ to_string i +:+ ".attn.c_attn.bias";
     Tensor.shape := [size_mul 3 (Full.n_embd c)];
     Tensor.data_type := DataType.FP32;
     Tensor.data :=
       zero_bytes (size_mul (size_mul 3 (Full.n_embd c)) sizeof_float) |}.

(** [weights_[t.name] = std::move(t)]. *)
Definition store (t : Tensor.t) (weights : gmap string Tensor.t)
    : gmap string Tensor.t :=
  <[Tensor.name t := t]> weights.

(** One iteration of the loop of lines 149-170. *)
Definition add_layer (c : Full.ModelConfig) (weights : gmap string Tensor.t)
    (i : nat) : gmap string Tensor.t :=
  store (attn_b c i) (store (attn_w c i) weights).

(** Lines 77-173.  [path] is not read. *)
Definition load_amb_model (path : string) : ModelState :=
  {| config_ := amb_config;
     tokenizer_ := DummyTokenizer;
     weights_ :=
       fold_left (add_layer amb_config)
                 (seq 0 (N.to_nat (Full.n_layers amb_config)))
                 (store (embedding_tensor amb_config) ∅) |}.

Definition load_gguf_model (path : string) : Result ModelState :=
  Throw (runtime_error "GGUF model loading not yet implemented").

Definition load_onnx_model (path : string) : Result ModelState :=
  Throw (runtime_error "ONNX model loading not yet implemented").

(** The constructor, lines 16-32.  What it prints is left out. *)
Definition Model_new (fs : FileSystem) (path : string) : Result ModelState :=
  match detect_format fs path with
  | Throw e => Throw e
  | Ok format =>
      if String.eqb format "amb" then Ok (load_amb_model path)
      else if String.eqb format "gguf" then load_gguf_model path
      else if String.eqb format "onnx" then load_onnx_model path
      else Throw (runtime_error ("Unsupported model format: " +:+ format))
  end.
End Loading.

(** Lines 183-193. *)
Definition get_tensor (m : ModelState) (name : string) : Result Tensor.t :=
  match weights_ m !! name with
  | Some t => Ok t
  | None => Throw (out_of_range ("Tensor not found: " +:+ name))
  end.

Definition has_tensor (m : ModelState) (name : string) : bool :=
  bool_decide (is_Some (weights_ m !! name)).

(** ** Definitions used by the statements about the model *)

(** The number of elements a shape describes. *)
Definition element_count (shape : list N) : N := foldr N.mul 1%N shape.

(** A tensor as [load_amb_model] makes them. *)
Definition amb_tensor (t : Tensor.t) : Prop :=
  t = embedding_tensor amb_config \/
  exists i, i < 24 /\ (t = attn_w amb_config i \/ t = attn_b amb_config i).

(** The names under which [load_amb_model] stores tensors. *)
Definition layer_names (i : nat) : list string :=
  ["transformer.h." +:+ to_string i +:+ ".attn.c_attn.weight";
   "transformer.h." +:+ to_string i +:+ ".attn.c_attn.bias"].

Definition amb_tensor_names : list string :=
  "transformer.wte.weight"%string :: flat_map layer_names (seq 0 24).

Section EmittedTokens.
Variable model_ : Model.

(** What holds of every emitted token. *)
Definition well_emitted (ev : TokenId * string) : Prop :=
  (0 <= ev.1 < Z.of_N (n_vocab (config model_)))%Z /\
  eos_token (tokenizer model_) <> Some ev.1 /\
  ev.2 = decode (tokenizer model_) [ev.1].

End EmittedTokens.

(** ** More runs of the two-token model *)

Module Examples.
(** A streaming callback that records the fragment and asks to stop. *)
Definition refuse : TokenCallback (list string) :=
  fun seen _ text => (false, seen ++ [text]).

(** The two-token model with the dummy tokenizer of [load_amb_model]. *)
Definition dummy_tiny : Model :=
  {| config := config (Tiny.model None); tokenizer := DummyTokenizer true |}.

Definition fresh_engine : Impl :=
  {| kv_cache_initialized_ := true;
     head_size_ := 2;
     last_logits_ := [F32.one; F32.zero];
     key_cache_ := [[F32.zero; F32.zero]];
     value_cache_ := [[F32.zero; F32.zero]] |}.

(** The call stopped by [refuse], with [max_length = 3]. *)
Definition cancelled : @Decoding Tiny.random (list string) :=
@Build_Decoding Tiny.random (list string)
  [7; 40; 1]%Z
  {| kv_cache_initialized_ := true;
     head_size_ := 2;
     last_logits_ := [F32.one; F32.zero];
     key_cache_ := [replicate 6 F32.zero];
     value_cache_ := [replicate 6 F32.zero] |}
  [f0_9; f0_9; f0_9]
  ["B"]
  [(1%Z, "B")]
  [Prime [7; 40]%Z; Step 1%Z 2].

(** A second call, with [max_length = 2], on the engine that
    [Tiny.after_one_token] holds. *)
Definition second_call : @Decoding Tiny.random (list string) :=
@Build_Decoding Tiny.random (list string)
  [7; 40; 1; 1]%Z
  fresh_engine
  [f0_9; f0_9]
  ["B"; "B"]
  [(1%Z, "B"); (1%Z, "B")]
  [Prime [7; 40]%Z; Step 1%Z 2; Step 1%Z 3].

(** The text of token 1 under the dummy tokenizer: the byte 1. *)
Definition byte_1 : string := String (ascii_of_nat 1) EmptyString.

(** A call of [generate] on [dummy_tiny], with [max_length = 1]. *)
Definition dummy_call : @Decoding Tiny.random string :=
@Build_Decoding Tiny.random string
  [72; 105; 1]%Z
  fresh_engine
  [f0_9; f0_9; f0_9]
  ("Hi" +:+ byte_1)
  [(1%Z, byte_1)]
  [Prime [72; 105]%Z; Step 1%Z 2].
End Examples.

(** The answers a callback gives when it is invoked on [events] in order,
    from the state [s]. *)
Fixpoint answers {CB : Type} (callback : TokenCallback CB) (s : CB)
    (events : list (TokenId * string)) : list bool :=
  match events with
  | [] => []
  | ev :: rest =>
      (callback s ev.1 ev.2).1 :: answers callback (callback s ev.1 ev.2).2 rest
  end.

(** The state a callback is in after it was invoked on [events] in order,
    from the state [s]. *)
Definition state_after {CB : Type} (callback : TokenCallback CB) (s : CB)
    (events : list (TokenId * string)) : CB :=
  fold_left (fun s ev => (callback s ev.1 ev.2).2) events s.

(** * Properties *)

(** ** The order of binary32 *)

Lemma pos_compare_cont_lt_trans m1 m2 m3 :
  Pos.compare_cont Eq m1 m2 = Lt -> Pos.compare_cont Eq m2 m3 = Lt ->
  Pos.compare_cont Eq m1 m3 = Lt.
Proof.
  change (Pos.compare_cont Eq m1 m2) with (m1 ?= m2)%positive.
  change (Pos.compare_cont Eq m2 m3) with (m2 ?= m3)%positive.
  change (Pos.compare_cont Eq m1 m3) with (m1 ?= m3)%positive.
  rewrite !Pos.compare_lt_iff. lia.
Qed.

Lemma pos_compare_cont_gt_trans m1 m2 m3 :
  CompOpp (Pos.compare_cont Eq m1 m2) = Lt -> CompOpp (Pos.compare_cont Eq m2 m3) = Lt ->
  CompOpp (Pos.compare_cont Eq m1 m3) = Lt.
Proof.
  change (Pos.compare_cont Eq m1 m2) with (m1 ?= m2)%positive.
  change (Pos.compare_cont Eq m2 m3) with (m2 ?= m3)%positive.
  change (Pos.compare_cont Eq m1 m3) with (m1 ?= m3)%positive.
  rewrite <- !Pos.compare_antisym, !Pos.compare_lt_iff. lia.
Qed.

Lemma ltb_transitive a b c :
  F32.ltb a b = true -> F32.ltb b c = true -> F32.ltb a c = true.
Proof.
  unfold F32.ltb, SFltb, SFcompare.
  destruct a as [sa|sa| |sa ma ea], b as [sb|sb| |sb mb eb],
           c as [sc|sc| |sc mc ec];
    try destruct sa; try destruct sb; try destruct sc;
    try (intros; congruence); try (intros; reflexivity).
  - destruct (Z.compare_spec ea eb), (Z.compare_spec eb ec), (Z.compare_spec ea ec);
      try (intros; congruence); try (intros; reflexivity); try lia.
    intros Hab Hbc.
    destruct (CompOpp (Pos.compare_cont Eq ma mb)) eqn:E1; try discriminate.
    destruct (CompOpp (Pos.compare_cont Eq mb mc)) eqn:E2; try discriminate.
    now rewrite (pos_compare_cont_gt_trans _ _ _ E1 E2).
  - destruct (Z.compare_spec ea eb), (Z.compare_spec eb ec), (Z.compare_spec ea ec);
      try (intros; congruence); try (intros; reflexivity); try lia.
    intros Hab Hbc.
    destruct (Pos.compare_cont Eq ma mb) eqn:E1; try discriminate.
    destruct (Pos.compare_cont Eq mb mc) eqn:E2; try discriminate.
    now rewrite (pos_compare_cont_lt_trans _ _ _ E1 E2).
Qed.

Lemma ltb_irreflexive a : F32.ltb a a = false.
Proof.
  unfold F32.ltb, SFltb, SFcompare.
  destruct a as [s|s| |s m e]; try destruct s; try reflexivity;
    rewrite Z.compare_refl;
    change (Pos.compare_cont Eq m m) with (m ?= m)%positive;
    now rewrite Pos.compare_refl.
Qed.

Lemma ltb_cotransitive a b c :
  b <> F32.nan -> F32.ltb a c = true ->
  F32.ltb a b = true \/ F32.ltb b c = true.
Proof.
  unfold F32.ltb, SFltb, SFcompare, F32.nan.
  destruct a as [sa|sa| |sa ma ea], b as [sb|sb| |sb mb eb],
           c as [sc|sc| |sc mc ec];
    try destruct sa; try destruct sb; try destruct sc;
    intros Hb Hac; try congruence; auto.
  - revert Hac.
    change (Pos.compare_cont Eq ma mb) with (ma ?= mb)%positive.
    change (Pos.compare_cont Eq mb mc) with (mb ?= mc)%positive.
    change (Pos.compare_cont Eq ma mc) with (ma ?= mc)%positive.
    destruct (Z.compare_spec ea eb), (Z.compare_spec eb ec),
             (Z.compare_spec ea ec); auto; try lia;
    destruct (Pos.compare_spec ma mb), (Pos.compare_spec mb mc),
             (Pos.compare_spec ma mc); simpl; auto; try lia.
  - revert Hac.
    change (Pos.compare_cont Eq ma mb) with (ma ?= mb)%positive.
    change (Pos.compare_cont Eq mb mc) with (mb ?= mc)%positive.
    change (Pos.compare_cont Eq ma mc) with (ma ?= mc)%positive.
    destruct (Z.compare_spec ea eb), (Z.compare_spec eb ec),
             (Z.compare_spec ea ec); auto; try lia;
    destruct (Pos.compare_spec ma mb), (Pos.compare_spec mb mc),
             (Pos.compare_spec ma mc); simpl; auto; try lia.
Qed.

(** ** The scripted instances satisfy the interfaces *)

Section StrictWeakOrder.
Variable comp : nat -> nat -> bool.
Variable l0 : list nat.
Hypothesis Hswo : strict_weak_order_on comp l0 = true.

Lemma swo_irreflexive a : In a l0 -> comp a a = false.
Proof using Hswo.
  intros Ha. unfold strict_weak_order_on in Hswo.
  apply andb_true_iff in Hswo as [Hirr _].
  rewrite forallb_forall in Hirr. apply Hirr in Ha.
  now destruct (comp a a).
Qed.

Lemma swo_triple a b c :
  In a l0 -> In b l0 -> In c l0 ->
  (comp a b = true -> comp b c = true -> comp a c = true) /\
  (incomparable comp a b = true -> incomparable comp b c = true ->
   incomparable comp a c = true).
Proof using Hswo.
  intros Ha Hb Hc. unfold strict_weak_order_on in Hswo.
  apply andb_true_iff in Hswo as [_ Htr].
  rewrite forallb_forall in Htr. apply Htr in Ha.
  rewrite forallb_forall in Ha. apply Ha in Hb.
  rewrite forallb_forall in Hb. apply Hb in Hc.
  apply andb_true_iff in Hc as [H1 H2]. split.
  - intros Hab Hbc. rewrite Hab, Hbc in H1. exact H1.
  - intros Hab Hbc. rewrite Hab, Hbc in H2. exact H2.
Qed.

Lemma swo_asymmetric a b :
  In a l0 -> In b l0 -> comp a b = true -> comp b a = false.
Proof using Hswo.
  intros Ha Hb Hab. destruct (comp b a) eqn:Hba; [|reflexivity].
  destruct (swo_triple a b a Ha Hb Ha) as [Htr _].
  rewrite <- (swo_irreflexive a Ha). symmetry. now apply Htr.
Qed.

Lemma swo_negative_transitive a b c :
  In a l0 -> In b l0 -> In c l0 ->
  comp a b = false -> comp b c = false -> comp a c = false.
Proof using Hswo.
  intros Ha Hb Hc Hab Hbc. destruct (comp a c) eqn:Hac; [|reflexivity].
  destruct (comp b a) eqn:Hba.
  { destruct (swo_triple b a c Hb Ha Hc) as [Htr _].
    rewrite <- Hbc. symmetry. now apply Htr. }
  destruct (comp c b) eqn:Hcb.
  { destruct (swo_triple a c b Ha Hc Hb) as [Htr _].
    rewrite <- Hab. symmetry. now apply Htr. }
  destruct (swo_triple a b c Ha Hb Hc) as [_ Hinc].
  unfold incomparable in Hinc.
  rewrite Hab, Hba, Hbc, Hcb, Hac in Hinc. simpl in Hinc.
  symmetry. now apply Hinc.
Qed.
End StrictWeakOrder.

Lemma insert_sorted_permutation comp x l :
  Permutation (x :: l) (Scripted.insert_sorted comp x l).
Proof.
  induction l as [|y l IH]; simpl; [reflexivity|].
  destruct (comp y x); [|reflexivity].
  rewrite Permutation_swap. now apply Permutation_cons.
Qed.

Lemma insertion_sort_permutation comp l :
  Permutation l (Scripted.insertion_sort comp l).
Proof.
  induction l as [|x l IH]; simpl; [reflexivity|].
  rewrite <- insert_sorted_permutation. now apply Permutation_cons.
Qed.

Lemma insert_sorted_ordered comp l0 x l :
  strict_weak_order_on comp l0 = true ->
  In x l0 -> (forall z, In z l -> In z l0) ->
  ordered_by comp l -> ordered_by comp (Scripted.insert_sorted comp x l).
Proof.
  intros Hswo Hx Hl Hs. induction Hs as [|y l Hs IH Hy]; simpl.
  - repeat constructor.
  - assert (Hy0 : In y l0) by (apply Hl; now left).
    assert (Hl' : forall z, In z l -> In z l0) by (intros z Hz; apply Hl; now right).
    destruct (comp y x) eqn:Hyx.
    + constructor; [now apply IH|].
      rewrite List.Forall_forall. intros z Hz.
      apply (Permutation_in _ (Permutation_sym (insert_sorted_permutation comp x l))) in Hz.
      destruct Hz as [<-|Hz].
      * now apply (swo_asymmetric comp l0 Hswo).
      * rewrite List.Forall_forall in Hy. now apply Hy.
    + constructor; [now constructor|].
      constructor; [exact Hyx|].
      rewrite List.Forall_forall in *. intros z Hz.
      apply (swo_negative_transitive comp l0 Hswo z y x); auto.
Qed.

Lemma insertion_sort_ordered comp l0 l :
  strict_weak_order_on comp l0 = true ->
  (forall z, In z l -> In z l0) ->
  ordered_by comp (Scripted.insertion_sort comp l).
Proof.
  intros Hswo. induction l as [|x l IH]; intros Hl; simpl.
  - constructor.
  - apply (insert_sorted_ordered comp l0); auto.
    + apply Hl. now left.
    + intros z Hz. apply Hl. right.
      now apply (Permutation_in _ (Permutation_sym (insertion_sort_permutation comp l))).
    + apply IH. intros z Hz. apply Hl. now right.
Qed.

Lemma ordered_by_lookup comp l :
  ordered_by comp l ->
  forall i j a b, i < j -> l !! i = Some a -> l !! j = Some b ->
    comp b a = false.
Proof.
  induction 1 as [|x l Hs IH Hx]; intros i j a b Hij Hi Hj.
  - discriminate.
  - destruct j as [|j]; [lia|]. simpl in Hj. destruct i as [|i]; simpl in Hi.
    + injection Hi as <-. rewrite List.Forall_forall in Hx. apply Hx.
      apply list_elem_of_In. now apply list_elem_of_lookup_2 in Hj.
    + apply (IH i j); auto. lia.
Qed.

Lemma scripted_sort_laws : @SortLaws scripted_algorithm.
Proof.
  split.
  - exact insertion_sort_permutation.
  - intros comp l Hswo. apply ordered_by_lookup.
    now apply (insertion_sort_ordered comp l).
Qed.

(** ** Repetition penalty *)

Lemma penalize_penalty_rule penalty x : penalize penalty x = penalty_rule penalty x.
Proof.
  unfold penalize, penalty_rule.
  destruct x as [s|s| |s m e]; try destruct s; reflexivity.
Qed.

Lemma length_penalize_token penalty logits token :
  length (penalize_token penalty logits token) = length logits.
Proof.
  unfold penalize_token.
  destruct (_ && _); [apply length_insert|reflexivity].
Qed.

Lemma length_apply_repetition_penalty logits tokens penalty :
  length (apply_repetition_penalty logits tokens penalty) = length logits.
Proof.
  unfold apply_repetition_penalty. revert logits.
  induction tokens as [|t tokens IH]; intros logits; simpl; [reflexivity|].
  rewrite IH. apply length_penalize_token.
Qed.

Lemma length_scale_temperature cfg logits :
  length (scale_temperature cfg logits) = length logits.
Proof.
  unfold scale_temperature.
  destruct (F32.gtb _ _); [apply length_map|reflexivity].
Qed.

Lemma length_adjust_logits cfg tokens logits :
  length (adjust_logits cfg tokens logits) = length logits.
Proof.
  unfold adjust_logits. destruct (F32.neb _ _).
  - rewrite length_apply_repetition_penalty. apply length_scale_temperature.
  - apply length_scale_temperature.
Qed.

(** What one history entry does to slot [i]. *)
Lemma penalize_token_lookup penalty logits token i :
  penalize_token penalty logits token !! i =
  (if Z.eq_dec token (Z.of_nat i) then penalty_rule penalty else id)
    <$> logits !! i.
Proof.
  unfold penalize_token.
  destruct (Z.leb_spec 0 token) as [Hpos|Hneg]; simpl.
  - destruct (Nat.ltb_spec (Z.to_nat token) (length logits)) as [Hlt|Hge].
    + destruct (Z.eq_dec token (Z.of_nat i)) as [->|Hne].
      * rewrite Nat2Z.id in *.
        destruct (lookup_lt_is_Some_2 logits i Hlt) as [x Hx].
        rewrite list_lookup_insert_eq by exact Hlt.
        rewrite Hx. simpl.
        rewrite (list_lookup_total_correct _ _ _ Hx).
        now rewrite penalize_penalty_rule.
      * rewrite list_lookup_insert_ne by lia.
        now destruct (logits !! i).
    + destruct (Z.eq_dec token (Z.of_nat i)) as [->|Hne].
      * rewrite Nat2Z.id in Hge.
        now rewrite (lookup_ge_None_2 logits i Hge).
      * now destruct (logits !! i).
  - destruct (Z.eq_dec token (Z.of_nat i)) as [->|Hne]; [lia|].
    now destruct (logits !! i).
Qed.

(** [C4] The repetition-penalty step.  Each entry of the history that is a
    slot of the score vector has the rule applied in place to the current
    value of that slot: divided by the penalty when positive, multiplied
    by it when non-positive.  So slot [i] ends with the rule applied once
    per occurrence of [i] in the history; entries outside
    [[0, vocab_size)] touch no slot and the vector keeps its length.  The
    decode loop runs the step when the penalty differs from 1.0 and leaves
    the scores alone, as if there were no such step, when it equals 1.0. *)
Theorem repetition_penalty_step (cfg : GenerationConfig)
    (tokens : TokenVector) (logits : list F32.float)
    (penalty : F32.float) (i : nat) :
  apply_repetition_penalty logits tokens penalty !! i =
    Nat.iter (count_occ Z.eq_dec tokens (Z.of_nat i)) (penalty_rule penalty)
      <$> logits !! i
  /\ length (apply_repetition_penalty logits tokens penalty) = length logits
  /\ adjust_logits cfg tokens logits =
       if F32.eqb (repetition_penalty cfg) F32.one
       then scale_temperature cfg logits
       else apply_repetition_penalty (scale_temperature cfg logits) tokens
                                     (repetition_penalty cfg).
Proof.
  split; [|split].
  - unfold apply_repetition_penalty. revert logits.
    induction tokens as [|t tokens IH]; intros logits; simpl.
    + now destruct (logits !! i).
    + rewrite IH, penalize_token_lookup. cbn [count_occ].
      destruct (Z.eq_dec t (Z.of_nat i)) as [Heq|Hne];
        destruct (logits !! i) as [x|]; simpl; try reflexivity.
      now rewrite <- Nat.iter_succ_r.
  - apply length_apply_repetition_penalty.
  - unfold adjust_logits, F32.neb.
    now destruct (F32.eqb _ _).
Qed.

(** ** Sampling *)

Lemma max_element_from_bound rest : forall best_i best i,
  best_i < i -> max_element_from best_i best i rest < i + length rest.
Proof.
  induction rest as [|x rest IH]; intros best_i best i Hlt; simpl; [lia|].
  destruct (F32.ltb best x).
  - specialize (IH i x (S i)). lia.
  - specialize (IH best_i best (S i)). lia.
Qed.

Lemma max_element_bound v i : max_element v = Some i -> i < length v.
Proof.
  destruct v as [|x rest]; [discriminate|]. simpl. intros [= <-].
  pose proof (max_element_from_bound rest 0 x 1). lia.
Qed.

Lemma max_element_nonempty v :
  v <> [] -> exists i, max_element v = Some i.
Proof. destruct v; [congruence|]. intros _. now eexists. Qed.

Lemma to_TokenId_small i :
  (Z.of_nat i < 2 ^ 31)%Z -> to_TokenId i = Z.of_nat i.
Proof.
  intros Hi. unfold to_TokenId.
  rewrite Z.mod_small; lia.
Qed.

Lemma cutoff_scan_Some probs top_p rest : forall i cumsum c,
  cutoff_scan probs top_p rest i cumsum = Some c ->
  exists k, c = i + k /\ k < length rest /\
    F32.geb (running_sum probs rest cumsum (S k)) top_p = true /\
    forall j, j < k ->
      F32.geb (running_sum probs rest cumsum (S j)) top_p = false.
Proof.
  induction rest as [|a rest IH]; intros i cumsum c; simpl; [discriminate|].
  destruct (F32.geb (F32.add cumsum (probs !!! a)) top_p) eqn:Hge.
  - intros [= <-]. exists 0. repeat split; [lia|simpl; lia|..].
    + unfold running_sum. simpl. assumption.
    + intros j Hj. lia.
  - intros Hc. apply IH in Hc as (k & -> & Hk & Hreach & Hbelow).
    exists (S k). repeat split; [lia|simpl; lia|exact Hreach|].
    intros [|j] Hj.
    + unfold running_sum. simpl. assumption.
    + apply Hbelow. lia.
Qed.

Lemma cutoff_scan_None probs top_p rest : forall i cumsum,
  cutoff_scan probs top_p rest i cumsum = None ->
  forall j, j < length rest ->
    F32.geb (running_sum probs rest cumsum (S j)) top_p = false.
Proof.
  induction rest as [|a rest IH]; intros i cumsum; simpl; [intros _ j; lia|].
  destruct (F32.geb (F32.add cumsum (probs !!! a)) top_p) eqn:Hge;
    [discriminate|].
  intros Hnone [|j] Hj.
  - unfold running_sum. simpl. assumption.
  - apply (IH _ _ Hnone). lia.
Qed.

Lemma cdf_scan_Some probs r rest : forall cdf a,
  cdf_scan probs r rest cdf = Some a ->
  exists k, rest !! k = Some a /\
    F32.leb r (running_sum probs rest cdf (S k)) = true /\
    forall j, j < k -> F32.leb r (running_sum probs rest cdf (S j)) = false.
Proof.
  induction rest as [|b rest IH]; intros cdf a; simpl; [discriminate|].
  destruct (F32.leb r (F32.add cdf (probs !!! b))) eqn:Hle.
  - intros [= <-]. exists 0. repeat split.
    + unfold running_sum. simpl. assumption.
    + intros j Hj. lia.
  - intros Ha. apply IH in Ha as (k & Hk & Hreach & Hbelow).
    exists (S k). repeat split; [exact Hk|exact Hreach|].
    intros [|j] Hj.
    + unfold running_sum. simpl. assumption.
    + apply Hbelow. lia.
Qed.

Lemma cdf_scan_None probs r rest : forall cdf,
  cdf_scan probs r rest cdf = None ->
  forall j, j < length rest ->
    F32.leb r (running_sum probs rest cdf (S j)) = false.
Proof.
  induction rest as [|b rest IH]; intros cdf; simpl; [intros _ j; lia|].
  destruct (F32.leb r (F32.add cdf (probs !!! b))) eqn:Hle; [discriminate|].
  intros Hnone [|j] Hj.
  - unfold running_sum. simpl. assumption.
  - apply (IH _ Hnone). lia.
Qed.

Lemma running_sum_take probs l acc k n :
  k <= n -> running_sum probs (take n l) acc k = running_sum probs l acc k.
Proof.
  intros Hk. unfold running_sum. rewrite take_take.
  now rewrite Nat.min_l by exact Hk.
Qed.

Lemma strict_weak_order_on_intro comp l :
  (forall a, In a l -> comp a a = false) ->
  (forall a b c, In a l -> In b l -> In c l ->
     comp a b = true -> comp b c = true -> comp a c = true) ->
  (forall a b c, In a l -> In b l -> In c l ->
     comp a b = false -> comp b c = false -> comp a c = false) ->
  strict_weak_order_on comp l = true.
Proof.
  intros Hirr Htr Hneg. unfold strict_weak_order_on.
  apply andb_true_iff. split.
  - apply forallb_forall. intros a Ha. now rewrite Hirr.
  - apply forallb_forall. intros a Ha.
    apply forallb_forall. intros b Hb.
    apply forallb_forall. intros c Hc.
    apply andb_true_iff. split.
    + destruct (comp a b) eqn:Hab; [|reflexivity].
      destruct (comp b c) eqn:Hbc; [|reflexivity].
      simpl. now rewrite (Htr a b c).
    + unfold incomparable.
      destruct (comp a b) eqn:Hab; [reflexivity|].
      destruct (comp b a) eqn:Hba; [reflexivity|].
      destruct (comp b c) eqn:Hbc; [reflexivity|].
      destruct (comp c b) eqn:Hcb; [reflexivity|].
      simpl. now rewrite (Hneg a b c), (Hneg c b a).
Qed.

Lemma nan_free_strict_weak_order probs :
  Forall (fun p => p <> F32.nan) probs ->
  strict_weak_order_on (prob_greater probs) (seq 0 (length probs)) = true.
Proof.
  intros Hnan.
  assert (Hp : forall a, In a (seq 0 (length probs)) -> probs !!! a <> F32.nan).
  { intros a Ha. apply in_seq in Ha.
    destruct (lookup_lt_is_Some_2 probs a) as [p Hpa]; [lia|].
    rewrite (list_lookup_total_correct _ _ _ Hpa).
    rewrite Forall_forall in Hnan. apply Hnan.
    now apply list_elem_of_lookup_2 in Hpa. }
  apply strict_weak_order_on_intro; unfold prob_greater, F32.gtb.
  - intros a _. apply ltb_irreflexive.
  - intros a b c _ _ _ Hab Hbc. now apply (ltb_transitive _ (probs !!! b)).
  - intros a b c _ Hb _ Hab Hbc.
    destruct (F32.ltb (probs !!! c) (probs !!! a)) eqn:Hac; [|reflexivity].
    destruct (ltb_cotransitive _ (probs !!! b) _ (Hp b Hb) Hac); congruence.
Qed.

Lemma max_element_from_maximal rest : forall pre best_i best,
  pre !! best_i = Some best ->
  (forall x, x ∈ pre -> F32.ltb best x = false) ->
  exists m,
    (pre ++ rest) !! max_element_from best_i best (length pre) rest = Some m /\
    forall x, x ∈ pre ++ rest -> F32.ltb m x = false.
Proof.
  induction rest as [|x rest IH]; intros pre best_i best Hbest Hmax; simpl.
  - exists best. rewrite app_nil_r. now split.
  - replace (pre ++ x :: rest) with ((pre ++ [x]) ++ rest)
      by now rewrite <- app_assoc.
    replace (S (length pre)) with (length (pre ++ [x]))
      by (rewrite length_app; simpl; lia).
    destruct (F32.ltb best x) eqn:Hlt.
    + apply IH.
      * rewrite lookup_app_r by lia. now rewrite Nat.sub_diag.
      * intros y Hy. apply elem_of_app in Hy as [Hy|Hy].
        -- destruct (F32.ltb x y) eqn:Hxy; [|reflexivity].
           rewrite <- (Hmax y Hy). symmetry.
           now apply (ltb_transitive _ x).
        -- apply list_elem_of_singleton in Hy as ->. apply ltb_irreflexive.
    + apply IH.
      * apply lookup_app_l_Some. exact Hbest.
      * intros y Hy. apply elem_of_app in Hy as [Hy|Hy]; [now apply Hmax|].
        now apply list_elem_of_singleton in Hy as ->.
Qed.

Lemma max_element_maximal v imax :
  max_element v = Some imax ->
  exists m, v !! imax = Some m /\ forall x, x ∈ v -> F32.ltb m x = false.
Proof.
  destruct v as [|x rest]; [discriminate|]. simpl. intros [= <-].
  apply (max_element_from_maximal rest [x] 0 x); [reflexivity|].
  intros y Hy. apply list_elem_of_singleton in Hy as ->. apply ltb_irreflexive.
Qed.

Section SamplingFacts.
Context `{Libm, StdAlgorithm, !SortLaws, StdRandom}.

Lemma length_softmax logits max_logit :
  length (softmax logits max_logit) = length logits.
Proof. unfold softmax. now rewrite !length_map. Qed.

Lemma sorted_indices_permutation probs :
  Permutation (seq 0 (length probs)) (sorted_indices probs).
Proof. apply sort_permutation. Qed.

Lemma length_sorted_indices probs :
  length (sorted_indices probs) = length probs.
Proof.
  rewrite <- (Permutation_length (sorted_indices_permutation probs)).
  apply length_seq.
Qed.

Lemma sorted_indices_bound probs k a :
  sorted_indices probs !! k = Some a -> a < length probs.
Proof.
  intros Hk. apply list_elem_of_lookup_2, list_elem_of_In in Hk.
  apply (Permutation_in _ (Permutation_sym (sorted_indices_permutation probs))) in Hk.
  apply in_seq in Hk. lia.
Qed.

Lemma find_cutoff_bound probs top_p :
  probs <> [] ->
  find_cutoff probs top_p (sorted_indices probs) < length probs.
Proof.
  intros Hne. unfold find_cutoff.
  assert (0 < length probs) by (destruct probs; [congruence|simpl; lia]).
  destruct (cutoff_scan _ _ _ _ _) as [c|] eqn:Hc; simpl.
  - apply cutoff_scan_Some in Hc as (k & -> & Hk & _).
    rewrite length_sorted_indices in Hk. lia.
  - rewrite length_sorted_indices. lia.
Qed.

(** The index the nucleus path returns is one of the sorted indices. *)
Lemma nucleus_pick_bound probs cutoff_idx r :
  probs <> [] ->
  nucleus_pick probs (sorted_indices probs) cutoff_idx r < length probs.
Proof.
  intros Hne. unfold nucleus_pick.
  destruct (cdf_scan _ _ _ _) as [a|] eqn:Ha; simpl.
  - apply cdf_scan_Some in Ha as (k & Hk & _).
    apply lookup_take_Some in Hk as [Hk _].
    now apply sorted_indices_bound in Hk.
  - assert (Hlen : 0 < length (sorted_indices probs)).
    { rewrite length_sorted_indices.
      destruct probs; [congruence|simpl; lia]. }
    destruct (lookup_lt_is_Some_2 _ _ Hlen) as [a Ha0].
    rewrite (list_lookup_total_correct _ _ _ Ha0).
    now apply sorted_indices_bound in Ha0.
Qed.

(** [C10] On a non-empty score vector whose indices fit [TokenId],
    [sample_token] returns, for every [top_p] and every state of the
    random engine, a token identifier in [[0, vocab_size)]. *)
Theorem sample_token_in_vocabulary (logits : list F32.float)
    (top_p : F32.float) (gen : mt19937) :
  logits <> [] ->
  (Z.of_nat (length logits) <= 2 ^ 31)%Z ->
  exists token gen',
    sample_token logits top_p gen = Some (token, gen') /\
    (0 <= token < Z.of_nat (length logits))%Z.
Proof.
  intros Hne Hfit. unfold sample_token.
  destruct (max_element_nonempty logits Hne) as [imax ->].
  set (probs := softmax logits (logits !!! imax)).
  assert (Hlen : length probs = length logits) by apply length_softmax.
  assert (Hpne : probs <> []).
  { intros Heq. rewrite Heq in Hlen. destruct logits; [congruence|discriminate]. }
  destruct (F32.ltb top_p F32.lit_1e_6).
  - destruct (max_element_nonempty probs Hpne) as [i Hi]. rewrite Hi.
    apply max_element_bound in Hi.
    exists (to_TokenId i), gen. split; [reflexivity|].
    rewrite to_TokenId_small; lia.
  - destruct (uniform_real_distribution _ _ gen) as [r gen'].
    pose proof (nucleus_pick_bound probs
      (find_cutoff probs top_p (sorted_indices probs)) r Hpne) as Hpick.
    eexists _, gen'. split; [reflexivity|].
    rewrite to_TokenId_small; lia.
Qed.
End SamplingFacts.

Lemma sample_token_in_vocabulary_witness :
  exists token gen',
    @sample_token scripted_libm scripted_algorithm (scripted_random (fun _ => []))
      [F32.one; F32.zero] f0_9 [f0_9] = Some (token, gen') /\
    (0 <= token < Z.of_nat (length [F32.one; F32.zero]))%Z.
Proof.
  apply (@sample_token_in_vocabulary scripted_libm scripted_algorithm
           scripted_sort_laws (scripted_random (fun _ => []))
           [F32.one; F32.zero] f0_9 [f0_9]).
  - discriminate.
  - simpl. lia.
Defined.

Section Nucleus.
Context `{Libm, StdAlgorithm, !SortLaws, StdRandom}.

(** [C5] Nucleus sampling.  The probabilities are the softmax computed
    after subtracting the maximal score; the indices are sorted by
    descending probability; the nucleus is the shortest prefix of them
    whose cumulative probability reaches [top_p], hence at least one
    token (all of them when no prefix reaches [top_p]); the draw is
    uniform over the total probability of the nucleus, which is the
    draw over the renormalised nucleus, and selects the first position
    whose cumulative probability reaches it; when none does, the first
    sorted index, the most probable token, is returned. *)
Theorem nucleus_sampling (logits : list F32.float) (top_p : F32.float)
    (gen : mt19937) (imax : nat) :
  max_element logits = Some imax ->
  F32.ltb top_p F32.lit_1e_6 = false ->
  nucleus_sampling_spec logits top_p gen imax.
Proof.
  intros Hmax Hp. unfold nucleus_sampling_spec.
  set (max_logit := logits !!! imax).
  set (probs := softmax logits max_logit).
  set (indices := sorted_indices probs).
  set (c := find_cutoff probs top_p indices).
  assert (Hlen : length probs = length logits) by apply length_softmax.
  assert (Hne : probs <> []).
  { apply max_element_bound in Hmax. intros Heq. rewrite Heq in Hlen.
    simpl in Hlen. lia. }
  assert (Hilen : length indices = length logits).
  { unfold indices. now rewrite length_sorted_indices. }
  assert (Hc : c < length logits).
  { rewrite <- Hlen. now apply find_cutoff_bound. }
  destruct (max_element_maximal logits imax Hmax) as (m & Hm & Hmost).
  assert (Hml : max_logit = m).
  { unfold max_logit. now rewrite (list_lookup_total_correct _ _ _ Hm). }
  split; [|split; [|split; [|split; [|split; [|split;
    [|split; [|split; [|split]]]]]]]].
  - now rewrite Hml.
  - rewrite Hml. exact Hmost.
  - intros i logit Hi. unfold probs, softmax.
    rewrite !list_lookup_fmap, Hi. reflexivity.
  - rewrite <- Hlen. apply sorted_indices_permutation.
  - intros Hswo i j a b Hij Ha Hb. rewrite <- Hlen in Hswo.
    apply (sort_ordered _ _ Hswo i j a b Hij Ha Hb).
  - intros Hnan i j a b Hij Ha Hb.
    apply (sort_ordered _ _ (nan_free_strict_weak_order probs Hnan)
             i j a b Hij Ha Hb).
  - exact Hc.
  - intros k Hk. unfold c, find_cutoff in Hk.
    destruct (cutoff_scan _ _ _ _ _) as [c'|] eqn:Hscan; simpl in Hk.
    + apply cutoff_scan_Some in Hscan as (k' & -> & _ & _ & Hbelow).
      apply Hbelow. lia.
    + apply (cutoff_scan_None _ _ _ _ _ Hscan). lia.
  - unfold c, find_cutoff.
    destruct (cutoff_scan _ _ _ _ _) as [c'|] eqn:Hscan; simpl.
    + apply cutoff_scan_Some in Hscan as (k' & -> & _ & Hreach & _).
      now left.
    + right. split; [now rewrite Hilen|].
      intros k Hk. apply (cutoff_scan_None _ _ _ _ _ Hscan). lia.
  - unfold sample_token. rewrite Hmax, Hp.
    fold max_logit. fold probs. fold indices. fold c.
    destruct (uniform_real_distribution _ _ gen) as [r gen'] eqn:Hdraw.
    simpl. exists (nucleus_pick probs indices c r). split; [reflexivity|].
    unfold nucleus_pick.
    destruct (cdf_scan _ _ _ _) as [a|] eqn:Ha; simpl.
    + left. apply cdf_scan_Some in Ha as (k & Hk & Hreach & Hbelow).
      apply lookup_take_Some in Hk as [Hk Hkc].
      exists k. split; [lia|]. split; [exact Hk|]. split.
      * rewrite running_sum_take in Hreach by lia. exact Hreach.
      * intros j Hj. specialize (Hbelow j Hj).
        rewrite running_sum_take in Hbelow by lia. exact Hbelow.
    + right. split.
      * intros k Hk.
        pose proof (cdf_scan_None _ _ _ _ Ha k) as Hbelow.
        rewrite length_take, Hilen in Hbelow.
        rewrite running_sum_take in Hbelow by lia. apply Hbelow. lia.
      * assert (Hpos : 0 < length indices) by lia.
        destruct (lookup_lt_is_Some_2 _ _ Hpos) as [a Ha0].
        now rewrite (list_lookup_total_correct _ _ _ Ha0).
Qed.
End Nucleus.

Lemma nucleus_sampling_witness :
  @nucleus_sampling_spec scripted_libm scripted_algorithm
    (scripted_random (fun _ => [])) [F32.one; F32.zero] f0_9 [f0_9] 0.
Proof.
  apply (@nucleus_sampling scripted_libm scripted_algorithm
           scripted_sort_laws (scripted_random (fun _ => []))
           [F32.one; F32.zero] f0_9 [f0_9] 0).
  - reflexivity.
  - reflexivity.
Defined.

(** ** When the arg-max is returned without a draw *)

(** With [top_p = 1] and the scores [[1.0, 0.0]] the most probable token
    is token 0, and the engine whose draw falls at 0.9 of the range makes
    [sample_token] return token 1: the nucleus is the whole vocabulary
    and the token is drawn from it. *)
Lemma top_p_one_draws_from_full_distribution :
  let logits := [F32.one; F32.zero] in
  F32.geb F32.one F32.one = true /\
  max_element (@softmax scripted_libm logits F32.one) = Some 0 /\
  @sample_token scripted_libm scripted_algorithm
    (scripted_random (fun _ => [])) logits F32.one [f0_9] = Some (1%Z, []) /\
  @sample_token scripted_libm scripted_algorithm
    (scripted_random (fun _ => [])) logits F32.one [f0_5] = Some (0%Z, []).
Proof. vm_compute. repeat split; reflexivity. Qed.

Section ArgmaxShortcut.
Context `{Libm, StdAlgorithm, StdRandom}.

(** [C6], as the code has it.  [sample_token] returns the arg-max of the
    probabilities, without touching the random engine, exactly when
    [top_p < 1e-6]; for every other [top_p], 1 included, it sorts the
    indices, truncates to the nucleus and draws from it.  The
    temperature is not an input of [sample_token]. *)
Theorem argmax_shortcut (logits : list F32.float) (top_p : F32.float)
    (gen : mt19937) (imax : nat) :
  max_element logits = Some imax ->
  argmax_shortcut_spec logits top_p gen imax.
Proof.
  intros Hmax. unfold argmax_shortcut_spec, sample_token. rewrite Hmax.
  split; [|split].
  - intros ->.
    destruct (max_element (softmax logits (logits !!! imax))) as [i|] eqn:Hi.
    + now exists i.
    + exfalso. apply max_element_bound in Hmax.
      pose proof (length_softmax logits (logits !!! imax)) as Hlen.
      destruct (softmax logits (logits !!! imax)); [simpl in Hlen; lia|].
      discriminate.
  - intros ->. now destruct (uniform_real_distribution _ _ gen).
  - reflexivity.
Qed.
End ArgmaxShortcut.

Lemma argmax_shortcut_witness :
  @argmax_shortcut_spec scripted_libm scripted_algorithm
    (scripted_random (fun _ => [])) [F32.one; F32.zero] F32.zero [f0_9] 0.
Proof.
  apply (@argmax_shortcut scripted_libm scripted_algorithm
           (scripted_random (fun _ => [])) [F32.one; F32.zero] F32.zero [f0_9] 0).
  reflexivity.
Defined.

(** ** Temperature 0 *)

(** [C2] fails in the code.  At temperature 0, with the scores
    [[1.0, 0.0]], a history that names no slot and [top_p = 0.9], the
    arg-max of the raw scores is token 0; the decode step returns token 1
    when the draw falls at 0.9 of the range and token 0 when it falls at
    0.5: the softmax, the nucleus and the random engine decide.  So do
    whole calls: the text is [HiB] when the random device seeds the
    sampling engine with 7 and [HiA] when it seeds it with 8. *)
Theorem temperature_zero_still_samples :
  let cfg := Tiny.cfg 1 F32.zero f0_9 in
  let logits := [F32.one; F32.zero] in
  let sample :=
    @sample_token scripted_libm scripted_algorithm Tiny.random
      (adjust_logits cfg [7; 40]%Z logits) (top_p cfg) in
  F32.eqb (temperature cfg) F32.zero = true /\
  max_element logits = Some 0 /\
  sample (mt19937_seed 7%Z) = Some (1%Z, [f0_9; f0_9; f0_9]) /\
  sample (mt19937_seed 8%Z) = Some (0%Z, [f0_5; f0_5; f0_5]) /\
  Tiny.text None "Hi" cfg [7; 1; 1]%Z = Returns "HiB" /\
  Tiny.text None "Hi" cfg [8; 1; 1]%Z = Returns "HiA".
Proof. vm_compute. repeat split; reflexivity. Qed.

(** ** The decode loop *)

Lemma string_app_assoc (s1 s2 s3 : string) :
  (s1 +:+ s2) +:+ s3 = s1 +:+ (s2 +:+ s3).
Proof.
  induction s1 as [|c s1 IH]; [reflexivity|].
  change (String c ((s1 +:+ s2) +:+ s3) = String c (s1 +:+ (s2 +:+ s3))).
  now rewrite IH.
Qed.

Lemma string_app_nil_r (s : string) : s +:+ EmptyString = s.
Proof.
  induction s as [|c s IH]; [reflexivity|].
  change (String c (s +:+ EmptyString) = String c s).
  now rewrite IH.
Qed.

Lemma fragments_snoc events token text :
  fragments (events ++ [(token, text)]) = fragments events +:+ text.
Proof.
  induction events as [|ev events IH].
  - simpl. apply string_app_nil_r.
  - change (ev.2 +:+ fragments (events ++ [(token, text)]) =
            (ev.2 +:+ fragments events) +:+ text).
    now rewrite IH, string_app_assoc.
Qed.

Section DecodeLoop.
Context `{Libm, StdAlgorithm, StdRandom, StdVector}.
Variable model_ : Model.

(** [C9] A decode step whose sampled token is the end-of-sequence token
    of the tokenizer leaves the loop at once through the [break] of line
    86: the token is not appended to the sequence, the callback is not
    invoked, no forward pass is made, and the engine is untouched. *)
Theorem eos_stops_decoding {CB : Type} (cfg : GenerationConfig)
    (callback : TokenCallback CB) (remaining : nat) (st : Decoding CB)
    (w : Entropy) (next_token : TokenId) (gen' : mt19937) :
  sample_token
    (adjust_logits cfg (tokens st) (get_next_token_logits (engine st)))
    (top_p cfg) (gen st) = Some (next_token, gen') ->
  eos_token (tokenizer model_) = Some next_token ->
  exists st',
    decode_loop model_ cfg callback (S remaining) st w =
      Returns (Stopped, st') /\
    tokens st' = tokens st /\
    emitted st' = emitted st /\
    forward_calls st' = forward_calls st /\
    callback_state st' = callback_state st /\
    engine st' = engine st /\
    gen st' = gen'.
Proof.
  intros Hsample Heos. simpl. rewrite Hsample.
  unfold is_eos. rewrite Heos, Z.eqb_refl.
  eexists. split; [reflexivity|]. simpl. repeat split.
Qed.

Lemma decode_loop_append_text {CB : Type} (cfg : GenerationConfig)
    (callback : TokenCallback CB) (prompt : string) :
  (forall cb token text, (callback cb token text).1 = true) ->
  forall remaining st w,
    decode_loop model_ cfg append_text remaining (accumulated prompt st) w =
    (fun r => (r.1, accumulated prompt r.2))
      <$> decode_loop model_ cfg callback remaining st w.
Proof.
  intros Hcont. induction remaining as [|remaining IH]; intros st w.
  - reflexivity.
  - cbn [decode_loop accumulated tokens engine gen callback_state emitted
         forward_calls].
    destruct (sample_token _ _ _) as [[next_token gen']|]; [|reflexivity].
    destruct (is_eos model_ next_token); [reflexivity|].
    destruct (process_single_token _ _ _ _ _) as [[engine' w']|ex];
      [|reflexivity].
    pose proof (Hcont (callback_state st) next_token
                      (decode (tokenizer model_) [next_token])) as Hc.
    destruct (callback _ _ _) as [continue cb']. simpl in Hc. subst continue.
    rewrite <- IH. unfold accumulated, append_text. simpl.
    now rewrite fragments_snoc, string_app_assoc.
Qed.

(** [C3] For every prompt, configuration and output of the random
    device, the string [generate] returns is the prompt followed by the
    text fragments handed to a streaming callback that never asks to
    stop, in the order of emission; the two calls also leave the engine
    in the same state. *)
Theorem generate_is_prompt_plus_fragments {CB : Type} (e : Impl)
    (prompt : string) (callback : TokenCallback CB) (cb0 : CB)
    (cfg : GenerationConfig) (w : Entropy) :
  (forall cb token text, (callback cb token text).1 = true) ->
  generate model_ e prompt cfg w =
  (fun r => (prompt +:+ fragments (emitted r.2), engine r.2))
    <$> generate_with_callback model_ e prompt callback cb0 cfg w.
Proof.
  intros Hcont. unfold generate, generate_with_callback.
  destruct (prepare_cache model_ e cfg) as [e0|ex]; [|reflexivity].
  destruct (random_device w) as [seed w1].
  destruct (process_tokens _ _ _ _) as [[e1 w2]|ex]; [|reflexivity].
  match goal with
  | |- context [decode_loop _ _ callback _ ?s _] =>
      pose proof (decode_loop_append_text cfg callback prompt Hcont
                    (N.to_nat (max_length cfg)) s w2) as Hloop
  end.
  unfold accumulated in Hloop. simpl in Hloop.
  rewrite string_app_nil_r in Hloop. rewrite Hloop.
  destruct (decode_loop _ _ callback _ _ _) as [[x st]|ex|]; reflexivity.
Qed.
End DecodeLoop.

(** [resize] is refused exactly as [resize_refusal] tells, and gives the
    vector its new length otherwise. *)
Lemma resize_eq {A : Type} (max_size heap n : N) (fill : A) (v : list A) :
  resize max_size heap n fill v =
  match resize_refusal max_size heap n with
  | Some ex => Throw ex
  | None => Ok (resized n fill v)
  end.
Proof.
  unfold resize, resize_refusal.
  destruct (max_size <? n)%N; [reflexivity|].
  now destruct (heap <? n)%N.
Qed.

Lemma length_resized {A : Type} (n : N) (fill : A) (v : list A) :
  length (resized n fill v) = N.to_nat n.
Proof.
  unfold resized. rewrite length_app, length_take, length_replicate. lia.
Qed.

Lemma length_resize {A : Type} (max_size heap n : N) (fill : A)
    (v v' : list A) :
  resize max_size heap n fill v = Ok v' -> length v' = N.to_nat n.
Proof.
  rewrite resize_eq. destruct (resize_refusal max_size heap n); [discriminate|].
  intros [= <-]. apply length_resized.
Qed.

Section LoopFacts.
Context `{Libm, StdAlgorithm, StdRandom, StdVector}.
Variable model_ : Model.

Lemma length_fill_normal n : forall dist gen,
  length (fill_normal n dist gen) = n.
Proof.
  induction n as [|n IH]; intros dist gen; simpl; [reflexivity|].
  destruct (normal_distribution_draw dist gen) as [[x dist'] gen'].
  simpl. now rewrite IH.
Qed.

(** A forward pass does not look at the scores it overwrites: it is
    refused or not by the size of the vocabulary alone, and reads one
    value of the random device. *)
Lemma random_logits_eq e w :
  random_logits model_ e w =
  match logits_refusal model_ with
  | Some ex => Throw ex
  | None =>
      Ok (fill_normal (N.to_nat (n_vocab (config model_)))
                      (normal_distribution_init F32.zero F32.one)
                      (mt19937_seed (w 0)),
          fun n => w (S n))
  end.
Proof.
  unfold random_logits, logits_refusal.
  destruct (resize _ _ _ _ _) as [logits|ex] eqn:Hresize.
  - pose proof (length_resize _ _ _ _ _ _ Hresize) as Hlen.
    rewrite resize_eq in Hresize.
    destruct (resize_refusal _ _ _); [discriminate|].
    simpl. now rewrite Hlen.
  - rewrite resize_eq in Hresize.
    destruct (resize_refusal _ _ _); [|discriminate].
    now injection Hresize as ->.
Qed.

Lemma process_tokens_eq e tokens w :
  process_tokens model_ e tokens w =
  match logits_refusal model_ with
  | Some ex => Throw ex
  | None =>
      Ok (set_last_logits e
            (fill_normal (N.to_nat (n_vocab (config model_)))
                         (normal_distribution_init F32.zero F32.one)
                         (mt19937_seed (w 0))),
          fun n => w (S n))
  end.
Proof.
  unfold process_tokens. rewrite random_logits_eq.
  now destruct (logits_refusal model_).
Qed.

Lemma process_single_token_eq e token position w :
  process_single_token model_ e token position w =
  process_tokens model_ e [] w.
Proof. reflexivity. Qed.

Lemma process_tokens_Ok e tokens w e' w' :
  process_tokens model_ e tokens w = Ok (e', w') ->
  logits_refusal model_ = None /\
  length (last_logits_ e') = N.to_nat (n_vocab (config model_)) /\
  kv_cache_initialized_ e' = kv_cache_initialized_ e /\
  head_size_ e' = head_size_ e /\
  key_cache_ e' = key_cache_ e /\
  value_cache_ e' = value_cache_ e.
Proof.
  rewrite process_tokens_eq.
  destruct (logits_refusal model_); [discriminate|].
  intros [= <- <-]. simpl. rewrite length_fill_normal. repeat split.
Qed.

(** What a run of the loop adds to the token sequence and to the trace,
    and what it leaves alone. *)
Lemma decode_loop_trace {CB : Type} (cfg : GenerationConfig)
    (callback : TokenCallback CB) :
  forall remaining st w exit st',
    decode_loop model_ cfg callback remaining st w = Returns (exit, st') ->
    exists new,
      emitted st' = emitted st ++ new /\
      tokens st' = tokens st ++ new.*1 /\
      forward_calls st' =
        forward_calls st ++ step_calls (length (tokens st)) new /\
      key_cache_ (engine st') = key_cache_ (engine st) /\
      value_cache_ (engine st') = value_cache_ (engine st) /\
      length new <= remaining /\
      (exit = Exhausted -> length new = remaining).
Proof.
  induction remaining as [|remaining IH]; intros st w exit st'.
  - simpl. intros [= <- <-]. exists [].
    rewrite !app_nil_r. repeat split; reflexivity.
  - cbn [decode_loop].
    destruct (sample_token _ _ _) as [[next_token gen']|]; [|discriminate].
    destruct (is_eos model_ next_token).
    { intros [= <- <-]. exists []. simpl.
      rewrite !app_nil_r. repeat split; [lia|discriminate]. }
    rewrite process_single_token_eq.
    destruct (process_tokens _ _ _ _) as [[engine' w']|ex] eqn:Hstep;
      [|discriminate].
    apply process_tokens_Ok in Hstep as (_ & _ & _ & _ & Hk & Hv).
    destruct (callback _ _ _) as [continue cb'].
    assert (Hpos : length (tokens st ++ [next_token]) - 1 = length (tokens st)).
    { rewrite length_app. simpl. lia. }
    destruct continue.
    + intros Hrun. apply IH in Hrun as (new & He & Ht & Hf & Hk' & Hv' & Hn & Hx).
      simpl in He, Ht, Hf, Hk', Hv'.
      exists ((next_token, decode (tokenizer model_) [next_token]) :: new).
      rewrite He, Ht, Hf, Hk', Hv', Hpos, <- !app_assoc. simpl.
      replace (length (tokens st ++ [next_token])) with (S (length (tokens st)))
        by (rewrite length_app; simpl; lia).
      repeat split; try assumption; [lia|].
      intros Hex. now rewrite (Hx Hex).
    + intros [= <- <-].
      exists [(next_token, decode (tokenizer model_) [next_token])].
      simpl. rewrite Hpos. repeat split; try assumption; [lia|discriminate].
Qed.

(** The loop reads one value of the random device per iteration. *)
Lemma decode_loop_entropy {CB : Type} (cfg : GenerationConfig)
    (callback : TokenCallback CB) :
  forall remaining st w1 w2,
    (forall n, n < remaining -> w1 n = w2 n) ->
    decode_loop model_ cfg callback remaining st w1 =
    decode_loop model_ cfg callback remaining st w2.
Proof.
  induction remaining as [|remaining IH]; intros st w1 w2 Hw;
    [reflexivity|].
  cbn [decode_loop].
  destruct (sample_token _ _ _) as [[next_token gen']|]; [|reflexivity].
  destruct (is_eos model_ next_token); [reflexivity|].
  rewrite !process_single_token_eq, !process_tokens_eq.
  destruct (logits_refusal model_); [reflexivity|].
  rewrite (Hw 0) by lia.
  destruct (callback _ _ _) as [[|] cb']; [|reflexivity].
  apply IH. intros n Hn. apply Hw. lia.
Qed.



End LoopFacts.

Section Calls.
Context `{Libm, StdAlgorithm, StdRandom, StdVector}.
Variable model_ : Model.

Lemma resize_layers_eq (n : N) :
  forall key_cache value_cache : list (list F32.float),
    length key_cache = length value_cache ->
    resize_layers n key_cache value_cache =
    match key_cache with
    | [] => Ok ([], [])
    | _ :: _ =>
        match resize_refusal max_size_float heap_float n with
        | Some ex => Throw ex
        | None => Ok (map (resized n F32.zero) key_cache,
                      map (resized n F32.zero) value_cache)
        end
    end.
Proof.
  induction key_cache as [|key key_cache IH]; intros [|value value_cache] Hlen;
    try discriminate; [reflexivity|].
  cbn [resize_layers]. rewrite !resize_eq.
  destruct (resize_refusal max_size_float heap_float n) as [ex|] eqn:Hn;
    [reflexivity|].
  cbn [mbind Result_bind]. rewrite IH by (simpl in Hlen; lia).
  destruct key_cache as [|key' key_cache]; destruct value_cache;
    try discriminate; reflexivity.
Qed.

(** Lines 49-51 are refused exactly as [cache_refusal] tells; otherwise
    they leave a cache of [n_layers] rows of [max_length * kv_dim] floats
    each, or the cache as it was. *)
Lemma prepare_cache_eq (e : Impl) (cfg : GenerationConfig) :
  prepare_cache model_ e cfg =
  match cache_refusal model_ e cfg with
  | Some ex => Throw ex
  | None =>
      if negb (kv_cache_initialized_ e) || negb (use_cache cfg) then
        let kv_dim := size_mul (n_kv_heads (config model_)) (head_size_ e) in
        let row := resized (size_mul (max_length cfg) kv_dim) F32.zero in
        Ok {| kv_cache_initialized_ := true;
              head_size_ := head_size_ e;
              last_logits_ := last_logits_ e;
              key_cache_ :=
                map row (resized (n_layers (config model_)) [] (key_cache_ e));
              value_cache_ :=
                map row (resized (n_layers (config model_)) []
                                 (value_cache_ e)) |}
      else Ok e
  end.
Proof.
  unfold prepare_cache, cache_refusal.
  destruct (negb (kv_cache_initialized_ e) || negb (use_cache cfg));
    [|reflexivity].
  unfold initialize_kv_cache. rewrite !resize_eq.
  destruct (resize_refusal max_size_row heap_row (n_layers (config model_)));
    [reflexivity|].
  cbn [mbind Result_bind].
  rewrite resize_layers_eq by now rewrite !length_resized.
  pose proof (length_resized (n_layers (config model_)) []
                             (key_cache_ e)) as Hk.
  pose proof (length_resized (n_layers (config model_)) []
                             (value_cache_ e)) as Hv.
  destruct (resized (n_layers (config model_)) [] (key_cache_ e))
    as [|key key_cache].
  - destruct (resized (n_layers (config model_)) [] (value_cache_ e));
      [|simpl in Hk, Hv; lia].
    replace (0 <? n_layers (config model_))%N with false
      by (symmetry; apply N.ltb_ge; simpl in Hk; lia).
    reflexivity.
  - replace (0 <? n_layers (config model_))%N with true
      by (symmetry; apply N.ltb_lt; simpl in Hk; lia).
    now destruct (resize_refusal max_size_float heap_float _).
Qed.

(** Past lines 49-51 the cache is marked initialised. *)
Lemma prepare_cache_flag (e e' : Impl) (cfg : GenerationConfig) :
  prepare_cache model_ e cfg = Ok e' -> kv_cache_initialized_ e' = true.
Proof.
  rewrite prepare_cache_eq.
  destruct (cache_refusal model_ e cfg); [discriminate|].
  destruct (kv_cache_initialized_ e) eqn:He; simpl.
  - destruct (use_cache cfg); simpl; now intros [= <-].
  - now intros [= <-].
Qed.

(** [C1], as the code has it.  A call reads the random device once to
    seed its sampling engine, once in the forward pass over the prompt
    and once in each single-token forward pass.  Two calls with the same
    engine state, prompt, callback and configuration produce the same
    token sequence, the same fragments and the same text when the
    random device returns the same values to both; nothing in the
    interface lets the caller fix those values. *)
Theorem generate_reproducible_given_device {CB : Type} (e : Impl)
    (prompt : string) (callback : TokenCallback CB) (cb0 : CB)
    (cfg : GenerationConfig) (w1 w2 : Entropy) :
  (forall n, n < N.to_nat (max_length cfg) + 2 -> w1 n = w2 n) ->
  generate_with_callback model_ e prompt callback cb0 cfg w1 =
    generate_with_callback model_ e prompt callback cb0 cfg w2 /\
  generate model_ e prompt cfg w1 = generate model_ e prompt cfg w2.
Proof.
  intros Hw.
  assert (Hcall : forall CB' (cb : TokenCallback CB') (s : CB'),
    generate_with_callback model_ e prompt cb s cfg w1 =
    generate_with_callback model_ e prompt cb s cfg w2).
  { intros CB' cb s.
    unfold generate_with_callback.
    destruct (prepare_cache model_ e cfg) as [e0|ex]; [|reflexivity].
    unfold random_device. cbv beta iota. rewrite !process_tokens_eq.
    destruct (logits_refusal model_); [reflexivity|].
    rewrite (Hw 0), (Hw 1) by lia.
    apply decode_loop_entropy. intros n Hn. apply Hw. lia. }
  split; [apply Hcall|].
  unfold generate. now rewrite Hcall.
Qed.

(** The trace of a whole call. *)
Lemma generate_with_callback_trace {CB : Type} (e : Impl)
    (prompt : string) (callback : TokenCallback CB) (cb0 : CB)
    (cfg : GenerationConfig) (w : Entropy) (exit : Exit)
    (st : Decoding CB) :
  generate_with_callback model_ e prompt callback cb0 cfg w =
    Returns (exit, st) ->
  let prompt_tokens := encode (tokenizer model_) prompt in
  key_cache_ <$> prepare_cache model_ e cfg = Ok (key_cache_ (engine st)) /\
  value_cache_ <$> prepare_cache model_ e cfg =
    Ok (value_cache_ (engine st)) /\
  tokens st = prompt_tokens ++ (emitted st).*1 /\
  forward_calls st =
    Prime prompt_tokens :: step_calls (length prompt_tokens) (emitted st) /\
  length (emitted st) <= N.to_nat (max_length cfg) /\
  (exit = Exhausted -> length (emitted st) = N.to_nat (max_length cfg)).
Proof.
  unfold generate_with_callback.
  destruct (prepare_cache model_ e cfg) as [e0|ex]; [|discriminate].
  destruct (random_device w) as [seed w1].
  destruct (process_tokens _ _ _ _) as [[e1 w2]|ex] eqn:Hprime;
    [|discriminate].
  apply process_tokens_Ok in Hprime as (_ & _ & _ & _ & Hk0 & Hv0).
  intros Hrun.
  apply decode_loop_trace in Hrun
    as (new & He & Ht & Hf & Hk & Hv & Hn & Hx).
  simpl in He, Ht, Hf, Hk, Hv. subst new.
  cbn [fmap Result_fmap]. rewrite Hk, Hv, Hk0, Hv0.
  repeat split; assumption.
Qed.





End Calls.

(** ** Whole calls on the two-token model *)

(** [C1] fails in the code: the same prompt and configuration on two fresh
    engines give two texts, because the seed of the sampling engine is
    whatever the random device returns (7 in the first call, 8 in the
    second). *)
Lemma same_call_two_texts :
  Tiny.text None "Hi" (Tiny.cfg 1 F32.one f0_9) [7; 1; 1]%Z = Returns "HiB" /\
  Tiny.text None "Hi" (Tiny.cfg 1 F32.one f0_9) [8; 1; 1]%Z = Returns "HiA".
Proof. vm_compute. split; reflexivity. Qed.

Lemma generate_reproducible_given_device_witness :
  Tiny.run None "Hi" (Tiny.cfg 1 F32.one f0_9) [7; 1; 1]%Z =
    Tiny.run None "Hi" (Tiny.cfg 1 F32.one f0_9) [7; 1; 1; 5]%Z /\
  Tiny.text None "Hi" (Tiny.cfg 1 F32.one f0_9) [7; 1; 1]%Z =
    Tiny.text None "Hi" (Tiny.cfg 1 F32.one f0_9) [7; 1; 1; 5]%Z.
Proof.
  destruct (@generate_reproducible_given_device
              scripted_libm scripted_algorithm Tiny.random lp64_vector
              (Tiny.model None)
              (list string) (Impl_new (Tiny.model None)) "Hi" Tiny.collect []
              (Tiny.cfg 1 F32.one f0_9)
              (Tiny.device [7; 1; 1]%Z) (Tiny.device [7; 1; 1; 5]%Z))
    as [Hrun Htext].
  - intros n Hn. simpl in Hn.
    destruct n as [|[|[|n]]]; [reflexivity | reflexivity | reflexivity | lia].
  - split; [exact Hrun|]. unfold Tiny.text. now rewrite Htext.
Defined.





Lemma generate_is_prompt_plus_fragments_witness :
  Tiny.text None "Hi" (Tiny.cfg 1 F32.one f0_9) [7; 1; 1]%Z =
  (fun r => "Hi" +:+ fragments (emitted r.2))
    <$> Tiny.run None "Hi" (Tiny.cfg 1 F32.one f0_9) [7; 1; 1]%Z.
Proof.
  unfold Tiny.text, Tiny.run.
  rewrite (@generate_is_prompt_plus_fragments
             scripted_libm scripted_algorithm Tiny.random lp64_vector
             (Tiny.model None)
             (list string) (Impl_new (Tiny.model None)) "Hi" Tiny.collect []
             (Tiny.cfg 1 F32.one f0_9) (Tiny.device [7; 1; 1]%Z)).
  - now destruct (generate_with_callback _ _ _ _ _ _ _) as [[exit st]|ex|].
  - intros cb token text. reflexivity.
Defined.

Lemma eos_stops_decoding_witness :
  exists st',
    @decode_loop scripted_libm scripted_algorithm Tiny.random lp64_vector
      (Tiny.model (Some 1%Z)) (list string) (Tiny.cfg 3 F32.one f0_9)
      Tiny.collect 3 Tiny.before_eos (Tiny.device []) = Returns (Stopped, st') /\
    tokens st' = [7; 40]%Z /\
    emitted st' = [] /\
    forward_calls st' = [Prime [7; 40]%Z].
Proof.
  destruct (@eos_stops_decoding
              scripted_libm scripted_algorithm Tiny.random lp64_vector
              (Tiny.model (Some 1%Z)) (list string) (Tiny.cfg 3 F32.one f0_9)
              Tiny.collect 2 Tiny.before_eos (Tiny.device []) 1%Z
              [f0_9; f0_9; f0_9])
    as (st' & Hrun & Ht & He & Hf & _); [reflexivity | reflexivity |].
  exists st'. repeat split; assumption.
Defined.

(** * Further properties *)

(** ** More on the repetition penalty *)

Lemma apply_repetition_penalty_lookup logits tokens penalty i :
  apply_repetition_penalty logits tokens penalty !! i =
    Nat.iter (count_occ Z.eq_dec tokens (Z.of_nat i)) (penalty_rule penalty)
      <$> logits !! i.
Proof.
  unfold apply_repetition_penalty. revert logits.
  induction tokens as [|t tokens IH]; intros logits; simpl.
  - now destruct (logits !! i).
  - rewrite IH, penalize_token_lookup. cbn [count_occ].
    destruct (Z.eq_dec t (Z.of_nat i)) as [Heq|Hne];
      destruct (logits !! i) as [x|]; simpl; try reflexivity.
    now rewrite <- Nat.iter_succ_r.
Qed.

(** [X1] The penalised scores depend on how many times each identifier
    occurs in the history, not on the order of the history. *)
Theorem repetition_penalty_order_irrelevant (logits : list F32.float)
    (tokens tokens' : TokenVector) (penalty : F32.float) :
  Permutation tokens tokens' ->
  apply_repetition_penalty logits tokens penalty =
  apply_repetition_penalty logits tokens' penalty.
Proof.
  intros Hperm. apply list_eq. intros i.
  rewrite !apply_repetition_penalty_lookup.
  now rewrite (proj1 (Permutation_count_occ Z.eq_dec tokens tokens') Hperm).
Qed.

(** ** The arg-max of a NaN-free vector *)

Lemma max_element_from_first rest : forall pre best_i best,
  Forall (fun x => x <> F32.nan) (pre ++ rest) ->
  pre !! best_i = Some best ->
  (forall x, x ∈ pre -> F32.ltb best x = false) ->
  (forall j x, j < best_i -> pre !! j = Some x -> F32.ltb x best = true) ->
  exists m,
    (pre ++ rest) !! max_element_from best_i best (length pre) rest = Some m /\
    forall j x, j < max_element_from best_i best (length pre) rest ->
      (pre ++ rest) !! j = Some x -> F32.ltb x m = true.
Proof.
  induction rest as [|x rest IH]; intros pre best_i best Hnan Hbest Hmax Hfirst;
    simpl.
  - exists best. rewrite app_nil_r. now split.
  - replace (pre ++ x :: rest) with ((pre ++ [x]) ++ rest) in *
      by now rewrite <- app_assoc.
    replace (S (length pre)) with (length (pre ++ [x]))
      by (rewrite length_app; simpl; lia).
    destruct (F32.ltb best x) eqn:Hlt.
    + apply IH; [exact Hnan| | |].
      * rewrite lookup_app_r by lia. now rewrite Nat.sub_diag.
      * intros y Hy. apply elem_of_app in Hy as [Hy|Hy].
        -- destruct (F32.ltb x y) eqn:Hxy; [|reflexivity].
           rewrite <- (Hmax y Hy). symmetry.
           now apply (ltb_transitive _ x).
        -- apply list_elem_of_singleton in Hy as ->. apply ltb_irreflexive.
      * intros j y Hj Hy. rewrite lookup_app_l in Hy by exact Hj.
        assert (Hyn : y <> F32.nan).
        { rewrite Forall_forall in Hnan. apply Hnan.
          apply elem_of_app. left. apply elem_of_app. left.
          now apply list_elem_of_lookup_2 in Hy. }
        destruct (ltb_cotransitive best y x Hyn Hlt) as [Hby|Hyx]; [|exact Hyx].
        rewrite Hmax in Hby; [discriminate|].
        now apply list_elem_of_lookup_2 in Hy.
    + apply IH; [exact Hnan| | |].
      * apply lookup_app_l_Some. exact Hbest.
      * intros y Hy. apply elem_of_app in Hy as [Hy|Hy]; [now apply Hmax|].
        now apply list_elem_of_singleton in Hy as ->.
      * intros j y Hj Hy.
        assert (Hbi : best_i < length pre) by now apply lookup_lt_Some in Hbest.
        rewrite lookup_app_l in Hy by lia. now apply (Hfirst j).
Qed.

Lemma max_element_first v imax :
  Forall (fun x => x <> F32.nan) v ->
  max_element v = Some imax ->
  exists m, v !! imax = Some m /\
    (forall x, x ∈ v -> F32.ltb m x = false) /\
    (forall j x, j < imax -> v !! j = Some x -> F32.ltb x m = true).
Proof.
  intros Hnan Hmax.
  destruct (max_element_maximal v imax Hmax) as (m & Hm & Hmost).
  exists m. split; [exact Hm|]. split; [exact Hmost|].
  destruct v as [|x rest]; [discriminate|]. simpl in Hmax.
  injection Hmax as <-.
  destruct (max_element_from_first rest [x] 0 x Hnan eq_refl) as (m' & Hm' & Hfirst).
  - intros y Hy. apply list_elem_of_singleton in Hy as ->. apply ltb_irreflexive.
  - intros j y Hj. lia.
  - simpl in Hm', Hfirst. rewrite Hm in Hm'. injection Hm' as <-. exact Hfirst.
Qed.

Section ArgmaxFirst.
Context `{Libm, StdAlgorithm, StdRandom}.

(** [X2] With [top_p < 1e-6] and probabilities free of NaN, [sample_token]
    returns the first index of maximal probability: no probability
    exceeds that of the returned index, every earlier index has a
    strictly smaller one, and the random engine is returned as given. *)
Theorem argmax_shortcut_takes_lowest_index (logits : list F32.float)
    (top_p : F32.float) (gen : mt19937) (imax : nat) :
  max_element logits = Some imax ->
  F32.ltb top_p F32.lit_1e_6 = true ->
  let probs := softmax logits (logits !!! imax) in
  Forall (fun p => p <> F32.nan) probs ->
  exists i p,
    sample_token logits top_p gen = Some (to_TokenId i, gen) /\
    probs !! i = Some p /\
    (forall q, q ∈ probs -> F32.ltb p q = false) /\
    (forall j q, j < i -> probs !! j = Some q -> F32.ltb q p = true).
Proof.
  intros Hmax Hp probs Hnan. unfold sample_token. rewrite Hmax, Hp.
  fold probs.
  destruct (max_element probs) as [i|] eqn:Hi.
  - destruct (max_element_first probs i Hnan Hi) as (p & Hpi & Hmost & Hfirst).
    exists i, p. repeat split; assumption.
  - exfalso. apply max_element_bound in Hmax.
    pose proof (length_softmax logits (logits !!! imax)) as Hlen.
    fold probs in Hlen. destruct probs; [simpl in Hlen; lia|discriminate].
Qed.
End ArgmaxFirst.

Section SampleRange.
Context `{Libm, StdAlgorithm, !SortLaws, StdRandom}.

Lemma sample_token_range logits top_p gen token gen' :
  (Z.of_nat (length logits) <= 2 ^ 31)%Z ->
  sample_token logits top_p gen = Some (token, gen') ->
  (0 <= token < Z.of_nat (length logits))%Z.
Proof.
  intros Hfit. unfold sample_token.
  destruct (max_element logits) as [imax|] eqn:Hmax; [|discriminate].
  set (probs := softmax logits (logits !!! imax)).
  assert (Hlen : length probs = length logits) by apply length_softmax.
  assert (Hpne : probs <> []).
  { apply max_element_bound in Hmax. intros Heq. rewrite Heq in Hlen.
    simpl in Hlen. lia. }
  destruct (F32.ltb top_p F32.lit_1e_6).
  - destruct (max_element probs) as [i|] eqn:Hi; [|discriminate].
    apply max_element_bound in Hi. intros [= <- <-].
    rewrite to_TokenId_small; lia.
  - destruct (uniform_real_distribution _ _ gen) as [r gen''].
    pose proof (nucleus_pick_bound probs
      (find_cutoff probs top_p (sorted_indices probs)) r Hpne) as Hpick.
    intros [= <- <-]. rewrite to_TokenId_small; lia.
Qed.
End SampleRange.

Section Runs.
Context `{Libm, StdAlgorithm, !SortLaws, StdRandom, StdVector}.
Variable model_ : Model.

Lemma is_eos_false token :
  is_eos model_ token = false -> eos_token (tokenizer model_) <> Some token.
Proof.
  unfold is_eos. destruct (eos_token (tokenizer model_)) as [eos|]; [|discriminate].
  intros Hne [= ->]. now rewrite Z.eqb_refl in Hne.
Qed.

Lemma decode_loop_well_emitted {CB : Type} (cfg : GenerationConfig)
    (callback : TokenCallback CB) :
  (Z.of_N (n_vocab (config model_)) <= 2 ^ 31)%Z ->
  forall remaining st w exit st',
    length (last_logits_ (engine st)) = N.to_nat (n_vocab (config model_)) ->
    Forall (well_emitted model_) (emitted st) ->
    decode_loop model_ cfg callback remaining st w = Returns (exit, st') ->
    Forall (well_emitted model_) (emitted st') /\
    length (last_logits_ (engine st')) = N.to_nat (n_vocab (config model_)) /\
    kv_cache_initialized_ (engine st') = kv_cache_initialized_ (engine st) /\
    head_size_ (engine st') = head_size_ (engine st).
Proof.
  intros Hfit. induction remaining as [|remaining IH];
    intros st w exit st' Hlen Hall.
  - simpl. intros [= <- <-]. repeat split; assumption.
  - cbn [decode_loop].
    destruct (sample_token _ _ _) as [[next_token gen']|] eqn:Hs; [|discriminate].
    apply sample_token_range in Hs.
    2:{ rewrite length_adjust_logits. unfold get_next_token_logits.
        rewrite Hlen. lia. }
    rewrite length_adjust_logits in Hs. unfold get_next_token_logits in Hs.
    rewrite Hlen in Hs.
    destruct (is_eos model_ next_token) eqn:Heos.
    { intros [= <- <-]. simpl. repeat split; assumption. }
    rewrite process_single_token_eq.
    destruct (process_tokens _ _ _ _) as [[engine' w']|ex] eqn:Hstep;
      [|discriminate].
    apply process_tokens_Ok in Hstep as (_ & Hl & Hflag & Hhead & _).
    assert (Hall' : Forall (well_emitted model_)
              (emitted st ++ [(next_token, decode (tokenizer model_) [next_token])])).
    { apply Forall_app. split; [exact Hall|]. constructor; [|constructor].
      unfold well_emitted. simpl. split; [lia|]. split; [|reflexivity].
      now apply is_eos_false. }
    destruct (callback _ _ _) as [[|] cb'].
    + intros Hrun. apply IH in Hrun; [|exact Hl|exact Hall'].
      simpl in Hrun. now rewrite Hflag, Hhead in Hrun.
    + intros [= <- <-]. simpl. repeat split; assumption.
Qed.

(** [X3] In every call on a model whose vocabulary fits [TokenId], each
    token handed to the callback is an identifier in [[0, n_vocab)], is
    not the end-of-sequence token, and comes with the text that [decode]
    gives for that single token. *)
Theorem emitted_tokens_are_valid {CB : Type} (e : Impl) (prompt : string)
    (callback : TokenCallback CB) (cb0 : CB) (cfg : GenerationConfig)
    (w : Entropy) (exit : Exit) (st : Decoding CB) :
  (Z.of_N (n_vocab (config model_)) <= 2 ^ 31)%Z ->
  generate_with_callback model_ e prompt callback cb0 cfg w =
    Returns (exit, st) ->
  Forall (fun ev =>
            (0 <= ev.1 < Z.of_N (n_vocab (config model_)))%Z /\
            eos_token (tokenizer model_) <> Some ev.1 /\
            ev.2 = decode (tokenizer model_) [ev.1])
         (emitted st).
Proof.
  intros Hfit. unfold generate_with_callback.
  destruct (prepare_cache model_ e cfg) as [e0|ex]; [|discriminate].
  destruct (random_device w) as [seed w1].
  destruct (process_tokens _ _ _ _) as [[e1 w2]|ex] eqn:Hprime;
    [|discriminate].
  apply process_tokens_Ok in Hprime as (_ & Hl & _).
  intros Hrun.
  apply (decode_loop_well_emitted cfg callback Hfit) in Hrun as [Hall _];
    [exact Hall|exact Hl|constructor].
Qed.



(** [X5] A callback that refuses the first token stops the call after
    that one token, whatever [max_length]: either the first sampled token
    is the end-of-sequence token and nothing is emitted, or exactly one
    token is emitted, appended and forwarded, and the loop is left
    through the [break] of line 100. *)
Theorem first_refusal_cancels {CB : Type} (e : Impl) (prompt : string)
    (callback : TokenCallback CB) (cb0 : CB) (cfg : GenerationConfig)
    (w : Entropy) (exit : Exit) (st : Decoding CB) :
  (forall token text, (callback cb0 token text).1 = false) ->
  (0 < max_length cfg)%N ->
  generate_with_callback model_ e prompt callback cb0 cfg w =
    Returns (exit, st) ->
  let prompt_tokens := encode (tokenizer model_) prompt in
  (exit = Stopped /\ emitted st = [] /\ tokens st = prompt_tokens /\
   callback_state st = cb0) \/
  (exit = Cancelled /\
   exists token,
     emitted st = [(token, decode (tokenizer model_) [token])] /\
     tokens st = prompt_tokens ++ [token] /\
     forward_calls st =
       [Prime prompt_tokens; Step token (length prompt_tokens)] /\
     callback_state st =
       (callback cb0 token (decode (tokenizer model_) [token])).2).
Proof.
  intros Hrefuse Hpos. unfold generate_with_callback.
  destruct (prepare_cache model_ e cfg) as [e0|ex]; [|discriminate].
  destruct (random_device w) as [seed w1].
  destruct (process_tokens _ _ _ _) as [[e1 w2]|ex]; [|discriminate].
  destruct (N.to_nat (max_length cfg)) as [|k] eqn:Hk; [lia|].
  cbn [decode_loop tokens engine gen callback_state emitted forward_calls].
  destruct (sample_token _ _ _) as [[next_token gen']|]; [|discriminate].
  destruct (is_eos model_ next_token).
  { intros [= <- <-]. left. simpl. repeat split. }
  destruct (process_single_token _ _ _ _ _) as [[engine' w']|ex];
    [|discriminate].
  pose proof (Hrefuse next_token (decode (tokenizer model_) [next_token])) as Hc.
  destruct (callback cb0 _ _) as [continue cb'] eqn:Hcb. simpl in Hc.
  subst continue. intros [= <- <-]. right. split; [reflexivity|].
  exists next_token. simpl. rewrite length_app. simpl.
  replace (length (encode (tokenizer model_) prompt) + 1 - 1)
    with (length (encode (tokenizer model_) prompt)) by lia.
  repeat split. now rewrite Hcb.
Qed.

(** The loop keeps the flag of the cache. *)
Lemma decode_loop_flag {CB : Type} (cfg : GenerationConfig)
    (callback : TokenCallback CB) :
  forall remaining (st : Decoding CB) w exit st',
    decode_loop model_ cfg callback remaining st w = Returns (exit, st') ->
    kv_cache_initialized_ (engine st') = kv_cache_initialized_ (engine st).
Proof.
  induction remaining as [|remaining IH]; intros st w exit st'.
  - simpl. now intros [= <- <-].
  - cbn [decode_loop].
    destruct (sample_token _ _ _) as [[next_token gen']|]; [|discriminate].
    destruct (is_eos model_ next_token); [now intros [= <- <-]|].
    rewrite process_single_token_eq.
    destruct (process_tokens _ _ _ _) as [[engine' w']|ex] eqn:Hstep;
      [|discriminate].
    apply process_tokens_Ok in Hstep as (_ & _ & Hflag & _).
    destruct (callback _ _ _) as [[|] cb'].
    + intros Hr. apply IH in Hr. simpl in Hr. congruence.
    + now intros [= <- <-].
Qed.

Lemma prepare_cache_stale e stale cfg :
  prepare_cache model_ (set_last_logits e stale) cfg =
  (fun e' => set_last_logits e' stale) <$> prepare_cache model_ e cfg.
Proof.
  rewrite !prepare_cache_eq. unfold cache_refusal. simpl.
  destruct (negb (kv_cache_initialized_ e) || negb (use_cache cfg));
    [|reflexivity].
  destruct (resize_refusal max_size_row heap_row _); [reflexivity|].
  destruct (0 <? n_layers (config model_))%N; [|reflexivity].
  now destruct (resize_refusal max_size_float heap_float _).
Qed.

(** [X6] A call does not read the scores an earlier call left in the
    engine: with any other [last_logits_] its outcome is the same.  So
    [get_logits], which is refused exactly as a forward pass is, and
    otherwise returns [n_vocab] scores and changes nothing of the engine
    but [last_logits_], has no effect on the calls that follow it. *)
Theorem get_logits_does_not_disturb {CB : Type} (e : Impl)
    (other prompt : string) (callback : TokenCallback CB) (cb0 : CB)
    (cfg : GenerationConfig) (w' w : Entropy) (stale : list F32.float) :
  generate_with_callback model_ (set_last_logits e stale) prompt
      callback cb0 cfg w =
    generate_with_callback model_ e prompt callback cb0 cfg w /\
  match get_logits model_ e other w' with
  | Ok (logits, e') =>
      logits_refusal model_ = None /\
      generate_with_callback model_ e' prompt callback cb0 cfg w =
        generate_with_callback model_ e prompt callback cb0 cfg w /\
      length logits = N.to_nat (n_vocab (config model_)) /\
      key_cache_ e' = key_cache_ e /\
      value_cache_ e' = value_cache_ e /\
      kv_cache_initialized_ e' = kv_cache_initialized_ e
  | Throw ex => logits_refusal model_ = Some ex
  end.
Proof.
  assert (Hstale : forall l,
    generate_with_callback model_ (set_last_logits e l) prompt callback cb0 cfg w =
    generate_with_callback model_ e prompt callback cb0 cfg w).
  { intros l. unfold generate_with_callback.
    rewrite prepare_cache_stale.
    destruct (prepare_cache model_ e cfg) as [e0|ex]; [|reflexivity].
    cbn [fmap Result_fmap].
    destruct (random_device w) as [seed w1].
    rewrite !process_tokens_eq.
    now destruct (logits_refusal model_). }
  split; [apply Hstale|].
  unfold get_logits. rewrite process_tokens_eq.
  destruct (logits_refusal model_); [reflexivity|].
  cbn [mbind Result_bind last_logits_ set_last_logits key_cache_ value_cache_
       kv_cache_initialized_].
  rewrite length_fill_normal.
  repeat split. apply Hstale.
Qed.

(** [X7] Every call leaves the cache marked initialised, so a later call
    with [use_cache = true] keeps the buffers exactly as the earlier call
    left them, whatever its own [max_length]. *)
Theorem cache_is_reused {CB1 CB2 : Type} (e : Impl)
    (prompt1 prompt2 : string)
    (callback1 : TokenCallback CB1) (cb1 : CB1)
    (callback2 : TokenCallback CB2) (cb2 : CB2)
    (cfg1 cfg2 : GenerationConfig) (w1 w2 : Entropy)
    (exit1 exit2 : Exit) (st1 : Decoding CB1) (st2 : Decoding CB2) :
  generate_with_callback model_ e prompt1 callback1 cb1 cfg1 w1 =
    Returns (exit1, st1) ->
  use_cache cfg2 = true ->
  generate_with_callback model_ (engine st1) prompt2 callback2 cb2 cfg2 w2 =
    Returns (exit2, st2) ->
  kv_cache_initialized_ (engine st1) = true /\
  key_cache_ (engine st2) = key_cache_ (engine st1) /\
  value_cache_ (engine st2) = value_cache_ (engine st1).
Proof.
  intros Hrun1 Huse Hrun2.
  assert (Hinit : kv_cache_initialized_ (engine st1) = true).
  { revert Hrun1. unfold generate_with_callback.
    destruct (prepare_cache model_ e cfg1) as [e0|ex] eqn:Hcache;
      [|discriminate].
    apply prepare_cache_flag in Hcache.
    destruct (random_device w1) as [seed w1'].
    destruct (process_tokens _ _ _ _) as [[e1 w1'']|ex] eqn:Hprime;
      [|discriminate].
    apply process_tokens_Ok in Hprime as (_ & Hl & Hflag1 & _).
    intros Hrun.
    apply (decode_loop_flag cfg1 callback1) in Hrun.
    simpl in Hrun. congruence. }
  split; [exact Hinit|].
  apply generate_with_callback_trace in Hrun2 as (Hk & Hv & _).
  unfold prepare_cache in Hk, Hv. rewrite Hinit, Huse in Hk, Hv.
  simpl in Hk, Hv. injection Hk as Hk. injection Hv as Hv. now split.
Qed.
End Runs.

(** ** The format of a model file *)

Lemma find_last_of_app stem ext ch :
  find_last_of ext ch = None ->
  find_last_of (stem +:+ String ch ext) ch = Some (String.length stem).
Proof.
  intros Hext. induction stem as [|c stem IH].
  - change (find_last_of (String ch ext) ch = Some 0). simpl.
    now rewrite Hext, Ascii.eqb_refl.
  - change (find_last_of (String c (stem +:+ String ch ext)) ch =
            Some (S (String.length stem))).
    simpl. now rewrite IH.
Qed.

Lemma substr_app stem s : substr (stem +:+ s) (String.length stem) = s.
Proof.
  induction stem as [|c stem IH].
  - change (substr s 0 = s). now destruct s.
  - change (substr (String c (stem +:+ s)) (S (String.length stem)) = s).
    simpl. exact IH.
Qed.

(** [X8] A path whose last dot is followed by [amb], [gguf] or [onnx], in
    any mix of upper and lower case, has that format whatever the file
    system holds: the file is not opened and need not exist. *)
Theorem extension_decides_format (fs : FileSystem) (stem ext format : string) :
  find_last_of ext "." = None ->
  transform tolower ext = format ->
  format = "amb"%string \/ format = "gguf"%string \/ format = "onnx"%string ->
  detect_format fs (stem +:+ "." +:+ ext) = Ok format.
Proof.
  intros Hdot Hlow Hformat. unfold detect_format, format_of_extension.
  change (stem +:+ "." +:+ ext) with (stem +:+ String "." ext).
  rewrite (find_last_of_app stem ext "." Hdot).
  replace (String.length stem + 1) with (String.length (stem +:+ ".")).
  2:{ clear. induction stem as [|c stem IH]; [reflexivity|].
      change (S (String.length (stem +:+ ".")) = S (String.length stem) + 1).
      now rewrite IH. }
  replace (stem +:+ String "." ext) with ((stem +:+ ".") +:+ ext)
    by now rewrite string_app_assoc.
  rewrite substr_app, Hlow.
  destruct Hformat as [->|[->| ->]]; reflexivity.
Qed.

Lemma prefix_app p s :
  String.prefix p s = true <-> exists rest, s = p +:+ rest.
Proof.
  revert s. induction p as [|c p IH]; intros s.
  - split; [intros _; now exists s|intros _; now destruct s].
  - destruct s as [|d s]; simpl.
    + split; [discriminate|]. intros [rest Hrest]. discriminate.
    + destruct (Ascii.ascii_dec c d) as [->|Hne].
      * rewrite IH. split.
        -- intros [rest ->]. now exists rest.
        -- intros [rest Hrest]. exists rest.
           change (String d s = String d (p +:+ rest)) in Hrest.
           now injection Hrest.
      * split; [discriminate|]. intros [rest Hrest].
        change (String d s = String c (p +:+ rest)) in Hrest.
        injection Hrest as -> _. congruence.
Qed.

Lemma length_string_app s1 s2 :
  String.length (s1 +:+ s2) = String.length s1 + String.length s2.
Proof.
  induction s1 as [|c s1 IH]; [reflexivity|].
  change (S (String.length (s1 +:+ s2)) = S (String.length s1) + String.length s2).
  now rewrite IH.
Qed.

Lemma format_of_extension_range path format :
  format_of_extension path = Some format ->
  format = "amb"%string \/ format = "gguf"%string \/ format = "onnx"%string.
Proof.
  unfold format_of_extension.
  destruct (find_last_of path ".") as [dot_pos|]; [|discriminate].
  repeat (destruct (String.eqb _ _); [intros [= <-]; auto|]).
  discriminate.
Qed.

Lemma format_of_header_range content :
  format_of_header content = "amb"%string \/
  format_of_header content = "gguf"%string \/
  format_of_header content = "onnx"%string.
Proof.
  unfold format_of_header.
  destruct (8 <=? String.length content); [|auto].
  repeat (destruct (String.prefix _ content); [auto|]). auto.
Qed.

(** [X9] A path is taken for a GGUF file in exactly two cases: its
    extension is [gguf]; or its extension names no format, the file can
    be opened, it starts with the bytes [GGUF] and it has at least eight
    bytes.  A shorter file that starts with [GGUF] is not. *)
Theorem gguf_detection (fs : FileSystem) (path : string) :
  detect_format fs path = Ok "gguf"%string <->
  format_of_extension path = Some "gguf"%string \/
  (format_of_extension path = None /\
   exists rest, fs path = Some ("GGUF" +:+ rest) /\ 4 <= String.length rest).
Proof.
  unfold detect_format.
  destruct (format_of_extension path) as [format|] eqn:Hext.
  - split.
    + intros [= ->]. now left.
    + intros [[= ->]|[Hnone _]]; [reflexivity|discriminate].
  - destruct (fs path) as [content|].
    + unfold format_of_header. split.
      * intros Hfmt. right. split; [reflexivity|].
        destruct (Nat.leb_spec 8 (String.length content)) as [Hlen|Hlen];
          [|discriminate].
        destruct (String.prefix "GGUF" content) eqn:Hp.
        -- apply prefix_app in Hp as [rest ->]. exists rest.
           split; [reflexivity|]. rewrite length_string_app in Hlen.
           simpl in Hlen. lia.
        -- revert Hfmt.
           repeat (destruct (String.prefix _ content); [discriminate|]).
           discriminate.
      * intros [Hsome|[_ (rest & [= ->] & Hlen)]]; [discriminate|].
        assert (Hl : (8 <=? String.length ("GGUF" +:+ rest)) = true).
        { apply Nat.leb_le. rewrite length_string_app. simpl. lia. }
        rewrite Hl.
        now rewrite (proj2 (prefix_app "GGUF" ("GGUF" +:+ rest)))
          by now exists rest.
    + split; [discriminate|].
      intros [Hsome|[_ (rest & Hrest & _)]]; discriminate.
Qed.

Lemma detect_format_range fs path format :
  detect_format fs path = Ok format ->
  format = "amb"%string \/ format = "gguf"%string \/ format = "onnx"%string.
Proof.
  unfold detect_format.
  destruct (format_of_extension path) as [f|] eqn:Hext.
  - intros [= <-]. now apply format_of_extension_range in Hext.
  - destruct (fs path) as [content|]; [|discriminate].
    intros [= <-]. apply format_of_header_range.
Qed.

Lemma detect_format_throws fs path e :
  detect_format fs path = Throw e ->
  e = runtime_error ("Failed to open model file: " +:+ path) /\ fs path = None.
Proof.
  unfold detect_format.
  destruct (format_of_extension path); [discriminate|].
  destruct (fs path); [discriminate|]. now intros [= <-].
Qed.

(** [X10] Constructing a model succeeds exactly when the detected format
    is [amb], and then gives the dummy model, whatever the path and the
    bytes of the file.  Otherwise it throws one of three errors: the
    file cannot be opened, or GGUF or ONNX loading is not implemented;
    the error for an unsupported format is never thrown. *)
Theorem Model_new_outcomes (char_is_signed : bool) (fs : FileSystem)
    (path : string) :
  (forall m, Model_new char_is_signed fs path = Ok m <->
     detect_format fs path = Ok "amb"%string /\
     m = load_amb_model char_is_signed path) /\
  (forall e, Model_new char_is_signed fs path = Throw e <->
     (detect_format fs path = Ok "gguf"%string /\
      e = runtime_error "GGUF model loading not yet implemented") \/
     (detect_format fs path = Ok "onnx"%string /\
      e = runtime_error "ONNX model loading not yet implemented") \/
     (fs path = None /\ format_of_extension path = None /\
      e = runtime_error ("Failed to open model file: " +:+ path))).
Proof.
  unfold Model_new.
  destruct (detect_format fs path) as [format|e0] eqn:Hfmt.
  - destruct (detect_format_range fs path format Hfmt) as [->|[->| ->]];
      simpl; unfold load_gguf_model, load_onnx_model; split.
    + intros m. split; [intros [= <-]; now split|now intros [_ ->]].
    + intros e. split; [discriminate|].
      intros [[[=] _]|[[[=] _]|(Hnone & Hext & _)]].
      unfold detect_format in Hfmt. rewrite Hext, Hnone in Hfmt. discriminate.
    + intros m. split; [discriminate|]. now intros [[=] _].
    + intros e. split; [intros [= <-]; left; now split|].
      intros [[_ ->]|[[[=] _]|(Hnone & Hext & _)]]; [reflexivity|].
      unfold detect_format in Hfmt. rewrite Hext, Hnone in Hfmt. discriminate.
    + intros m. split; [discriminate|]. now intros [[=] _].
    + intros e. split; [intros [= <-]; right; left; now split|].
      intros [[[=] _]|[[_ ->]|(Hnone & Hext & _)]]; [reflexivity|].
      unfold detect_format in Hfmt. rewrite Hext, Hnone in Hfmt. discriminate.
  - apply detect_format_throws in Hfmt as Hthrow. destruct Hthrow as [-> Hnone].
    split.
    + intros m. split; [discriminate|]. now intros [[=] _].
    + intros e. split.
      * intros [= <-]. right. right. repeat split; [exact Hnone|].
        unfold detect_format in Hfmt.
        now destruct (format_of_extension path).
      * intros [[[=] _]|[[[=] _]|(_ & _ & ->)]]. reflexivity.
Qed.

(** ** The dummy tokenizer *)

Lemma char_of_TokenId_of_char signed c :
  char_of_TokenId (TokenId_of_char signed c) = c.
Proof.
  unfold char_of_TokenId, TokenId_of_char, TokenId. cbv zeta.
  pose proof (nat_ascii_bounded c) as Hc.
  assert (Hmod : ((if signed && (128 <=? Z.of_nat (nat_of_ascii c))%Z
                   then Z.of_nat (nat_of_ascii c) - 256
                   else Z.of_nat (nat_of_ascii c)) mod 256 =
                  Z.of_nat (nat_of_ascii c))%Z).
  { destruct (signed && _).
    - replace (Z.of_nat (nat_of_ascii c) - 256)%Z
        with (Z.of_nat (nat_of_ascii c) + (-1) * 256)%Z by lia.
      rewrite Z.mod_add by lia. apply Z.mod_small. lia.
    - apply Z.mod_small. lia. }
  rewrite Hmod, Nat2Z.id. apply ascii_nat_embedding.
Qed.

(** [X11] The dummy tokenizer gives one token per byte, each in the range
    of [char] (from -128 when [char] is signed, from 0 otherwise, and
    below 256), and decoding what it encoded gives the text back, on
    either kind of platform. *)
Theorem dummy_tokenizer_round_trip (char_is_signed : bool) (text : string) :
  let tok := DummyTokenizer char_is_signed in
  decode tok (encode tok text) = text /\
  length (encode tok text) = String.length text /\
  Forall (fun t => ((if char_is_signed then -128 else 0) <= t < 256)%Z)
         (encode tok text).
Proof.
  simpl. split; [|split].
  - induction text as [|c text IH]; [reflexivity|].
    simpl. now rewrite char_of_TokenId_of_char, IH.
  - rewrite length_map. induction text as [|c text IH]; [reflexivity|].
    simpl. now rewrite IH.
  - induction text as [|c text IH]; [constructor|].
    simpl. constructor; [|exact IH].
    unfold TokenId_of_char. cbv zeta. pose proof (nat_ascii_bounded c) as Hc.
    destruct char_is_signed; simpl.
    + destruct (Z.leb_spec 128 (Z.of_nat (nat_of_ascii c))); lia.
    + lia.
Qed.

Lemma string_of_list_ascii_app l1 l2 :
  string_of_list_ascii (l1 ++ l2) =
  string_of_list_ascii l1 +:+ string_of_list_ascii l2.
Proof.
  induction l1 as [|c l1 IH]; [reflexivity|].
  change (String c (string_of_list_ascii (l1 ++ l2)) =
          String c (string_of_list_ascii l1 +:+ string_of_list_ascii l2)).
  now rewrite IH.
Qed.

Lemma dummy_decode_app signed tokens1 tokens2 :
  decode (DummyTokenizer signed) (tokens1 ++ tokens2) =
  decode (DummyTokenizer signed) tokens1 +:+
  decode (DummyTokenizer signed) tokens2.
Proof. simpl. now rewrite map_app, string_of_list_ascii_app. Qed.

(** [X12] The dummy tokenizer decodes token by token and reads only the
    low eight bits of a token: the text of a concatenation is the
    concatenation of the texts, and tokens that differ by multiples of
    256 give the same text, so the identifiers from 256 up to the
    model's [n_vocab] are rendered as the bytes 0 to 255 again. *)
Theorem dummy_tokenizer_decode (char_is_signed : bool)
    (tokens1 tokens2 : TokenVector) (k : TokenId -> Z) :
  let tok := DummyTokenizer char_is_signed in
  decode tok (tokens1 ++ tokens2) = decode tok tokens1 +:+ decode tok tokens2 /\
  decode tok (map (fun t => (t + 256 * k t)%Z) tokens1) = decode tok tokens1.
Proof.
  split; [apply dummy_decode_app|].
  simpl. f_equal. rewrite map_map. apply map_ext. intros t.
  unfold char_of_TokenId. f_equal. f_equal.
  rewrite Z.mul_comm. apply Z.mod_add. lia.
Qed.

(** ** The tensors of the dummy model *)

Lemma length_zero_bytes n : N.of_nat (length (zero_bytes n)) = n.
Proof. unfold zero_bytes. rewrite length_replicate. apply N2Nat.id. Qed.

Lemma amb_tensor_sizes t :
  amb_tensor t ->
  Tensor.data_type t = DataType.FP32 /\
  N.of_nat (length (Tensor.data t)) = (4 * element_count (Tensor.shape t))%N.
Proof.
  intros [->|(i & _ & [->| ->])];
    cbn [Tensor.data Tensor.shape Tensor.data_type
         embedding_tensor attn_w attn_b];
    rewrite length_zero_bytes; split; reflexivity.
Qed.

Lemma fold_add_layer_lookup c layers : forall weights name t,
  fold_left (add_layer c) layers weights !! name = Some t ->
  weights !! name = Some t \/
  exists i, i ∈ layers /\
    (t = attn_w c i \/ t = attn_b c i) /\ Tensor.name t = name.
Proof.
  induction layers as [|i layers IH]; intros weights name t; simpl.
  - now left.
  - intros Hl. apply IH in Hl as [Hl|(j & Hj & Ht)].
    + unfold add_layer, store in Hl.
      destruct (decide (Tensor.name (attn_b c i) = name)) as [Hb|Hb].
      { rewrite Hb, lookup_insert_eq in Hl. injection Hl as <-.
        right. exists i. split; [left|]. now split; [right|]. }
      rewrite lookup_insert_ne in Hl by exact Hb.
      destruct (decide (Tensor.name (attn_w c i) = name)) as [Hw|Hw].
      { rewrite Hw, lookup_insert_eq in Hl. injection Hl as <-.
        right. exists i. split; [left|]. now split; [left|]. }
      rewrite lookup_insert_ne in Hl by exact Hw. now left.
    + right. exists j. split; [now right|exact Ht].
Qed.

Lemma amb_weights_lookup signed path name t :
  weights_ (load_amb_model signed path) !! name = Some t ->
  amb_tensor t /\ Tensor.name t = name.
Proof.
  unfold load_amb_model. cbn [weights_].
  intros Hl. apply fold_add_layer_lookup in Hl as [Hl|(i & Hi & Ht & Hn)].
  - unfold store in Hl.
    destruct (decide (Tensor.name (embedding_tensor amb_config) = name))
      as [He|He].
    + rewrite He, lookup_insert_eq in Hl. injection Hl as <-.
      split; [now left|exact He].
    + rewrite lookup_insert_ne in Hl by exact He. discriminate.
  - split; [|exact Hn]. right. exists i. split; [|exact Ht].
    apply elem_of_seq in Hi. change (N.to_nat (Full.n_layers amb_config)) with 24 in Hi.
    lia.
Qed.

(** [X13] In a loaded model [has_tensor] and [get_tensor] agree:
    [get_tensor] returns a tensor exactly for the names [has_tensor]
    accepts and throws [out_of_range] for the others.  The tensor
    returned carries the name it was asked by, is of type FP32, and
    holds four zero-initialised bytes per element of its shape. *)
Theorem get_tensor_of_loaded_model (char_is_signed : bool)
    (path name : string) :
  let m := load_amb_model char_is_signed path in
  (has_tensor m name = true ->
   exists t, get_tensor m name = Ok t /\
     Tensor.name t = name /\
     Tensor.data_type t = DataType.FP32 /\
     N.of_nat (length (Tensor.data t)) =
       (4 * element_count (Tensor.shape t))%N /\
     Forall (fun b => b = Byte.x00) (Tensor.data t)) /\
  (has_tensor m name = false ->
   get_tensor m name = Throw (out_of_range ("Tensor not found: " +:+ name))).
Proof.
  intros m. unfold has_tensor, get_tensor. split.
  - intros Hhas. apply bool_decide_eq_true in Hhas as [t Ht].
    rewrite Ht. exists t. split; [reflexivity|].
    apply amb_weights_lookup in Ht as [Hamb Hname].
    destruct (amb_tensor_sizes t Hamb) as [Hty Hsize].
    repeat split; try assumption.
    destruct Hamb as [->|(i & _ & [->| ->])];
      cbn [Tensor.data embedding_tensor attn_w attn_b]; unfold zero_bytes;
      apply Forall_replicate; reflexivity.
  - intros Hhas. apply bool_decide_eq_false in Hhas.
    destruct (weights_ m !! name) as [t|] eqn:Ht; [|reflexivity].
    exfalso. apply Hhas. now exists t.
Qed.

(** ** The tensor table *)

Lemma dom_fold_add_layer c layers : forall weights name,
  name ∈ dom (fold_left (add_layer c) layers weights) <->
  name ∈ dom weights \/ In name (flat_map layer_names layers).
Proof.
  induction layers as [|i layers IH]; intros weights name.
  - simpl. split; [auto|]. now intros [Hw|[]].
  - cbn [fold_left flat_map]. rewrite IH, in_app_iff.
    unfold add_layer, store.
    rewrite !dom_insert_L, !elem_of_union, !elem_of_singleton.
    cbn [Tensor.name attn_w attn_b layer_names In]. intuition congruence.
Qed.

Lemma dom_amb_weights signed path :
  dom (weights_ (load_amb_model signed path)) = list_to_set amb_tensor_names.
Proof.
  apply set_eq. intros name.
  unfold load_amb_model. cbn [weights_].
  rewrite dom_fold_add_layer. unfold store.
  rewrite dom_insert_L, dom_empty_L, elem_of_union, elem_of_singleton.
  rewrite elem_of_list_to_set, list_elem_of_In.
  cbn [Tensor.name embedding_tensor].
  change (N.to_nat (Full.n_layers amb_config)) with 24.
  unfold amb_tensor_names. cbn [In].
  rewrite elem_of_empty. intuition congruence.
Qed.

Lemma amb_tensor_names_NoDup : NoDup amb_tensor_names.
Proof. apply (bool_decide_unpack (NoDup amb_tensor_names)). vm_compute. exact I. Qed.

(** [X14] The loaded model holds 49 tensors: the embedding and, for each
    of the 24 layers, the attention weight and the attention bias.
    [has_tensor] accepts these names and no other. *)
Theorem tensors_of_loaded_model (char_is_signed : bool) (path name : string) :
  let m := load_amb_model char_is_signed path in
  (has_tensor m name = true <->
   name = "transformer.wte.weight"%string \/
   exists i, i < 24 /\
     (name = "transformer.h." +:+ to_string i +:+ ".attn.c_attn.weight" \/
      name = "transformer.h." +:+ to_string i +:+ ".attn.c_attn.bias")) /\
  size (weights_ m) = 49.
Proof.
  intros m. split.
  - unfold has_tensor. rewrite bool_decide_eq_true, <- elem_of_dom.
    unfold m. rewrite dom_amb_weights, elem_of_list_to_set.
    rewrite list_elem_of_In. unfold amb_tensor_names.
    cbn [In]. rewrite in_flat_map.
    split.
    + intros [<-|(i & Hi & Hn)]; [now left|]. right. exists i.
      apply in_seq in Hi. split; [lia|].
      destruct Hn as [<-|[<-|[]]]; auto.
    + intros [->|(i & Hi & Hn)]; [now left|]. right. exists i.
      split; [apply in_seq; lia|].
      destruct Hn as [->| ->]; [left|right; left]; reflexivity.
  - rewrite <- size_dom. unfold m. rewrite dom_amb_weights.
    rewrite size_list_to_set by apply amb_tensor_names_NoDup.
    reflexivity.
Qed.

(** ** The text of a call and its tokens *)

Section TextOfTokens.
Context `{Libm, StdAlgorithm, StdRandom, StdVector}.
Variable model_ : Model.
Hypothesis decode_app : forall tokens1 tokens2,
  decode (tokenizer model_) (tokens1 ++ tokens2) =
  decode (tokenizer model_) tokens1 +:+ decode (tokenizer model_) tokens2.

Lemma decode_nil : decode (tokenizer model_) [] = EmptyString.
Proof.
  pose proof (decode_app [] []) as Happ. simpl in Happ.
  apply (f_equal String.length) in Happ. rewrite length_string_app in Happ.
  destruct (decode (tokenizer model_) []); [reflexivity|simpl in Happ; lia].
Qed.

Lemma decode_loop_text (cfg : GenerationConfig) :
  forall remaining (st : Decoding string) w exit st',
    decode_loop model_ cfg append_text remaining st w = Returns (exit, st') ->
    exists generated,
      tokens st' = tokens st ++ generated /\
      callback_state st' =
        callback_state st +:+ decode (tokenizer model_) generated.
Proof.
  induction remaining as [|remaining IH]; intros st w exit st'.
  - simpl. intros [= <- <-]. exists [].
    now rewrite app_nil_r, decode_nil, string_app_nil_r.
  - cbn [decode_loop].
    destruct (sample_token _ _ _) as [[next_token gen']|]; [|discriminate].
    destruct (is_eos model_ next_token).
    { intros [= <- <-]. exists []. simpl.
      now rewrite app_nil_r, decode_nil, string_app_nil_r. }
    destruct (process_single_token _ _ _ _ _) as [[engine' w']|ex];
      [|discriminate].
    unfold append_text at 1.
    intros Hrun. apply IH in Hrun as (generated & Ht & Hs).
    simpl in Ht, Hs. exists (next_token :: generated).
    rewrite Ht, Hs, <- app_assoc. split; [reflexivity|].
    change (next_token :: generated) with ([next_token] ++ generated).
    now rewrite decode_app, string_app_assoc.
Qed.

(** [X15] When the tokenizer decodes token by token and gives the prompt
    back from its tokens, as the dummy tokenizer does, the string
    [generate] returns is the decoding of the final token sequence, the
    prompt's tokens followed by the generated ones. *)
Theorem generate_decodes_final_tokens (e : Impl) (prompt : string)
    (cfg : GenerationConfig) (w : Entropy) (exit : Exit)
    (st : Decoding string) :
  decode (tokenizer model_) (encode (tokenizer model_) prompt) = prompt ->
  generate_with_callback model_ e prompt append_text prompt cfg w =
    Returns (exit, st) ->
  callback_state st = decode (tokenizer model_) (tokens st) /\
  generate model_ e prompt cfg w =
    Returns (decode (tokenizer model_) (tokens st), engine st).
Proof using decode_app.
  intros Hround Hrun.
  assert (Htext : callback_state st = decode (tokenizer model_) (tokens st)).
  { revert Hrun. unfold generate_with_callback.
    destruct (prepare_cache model_ e cfg) as [e0|ex]; [|discriminate].
    destruct (random_device w) as [seed w1].
    destruct (process_tokens _ _ _ _) as [[e1 w2]|ex]; [|discriminate].
    intros Hrun. apply decode_loop_text in Hrun as (generated & Ht & Hs).
    simpl in Ht, Hs. now rewrite Hs, Ht, decode_app, Hround. }
  split; [exact Htext|].
  unfold generate. rewrite Hrun. simpl. now rewrite Htext.
Qed.
End TextOfTokens.

(** ** The properties above on concrete inputs *)

Lemma repetition_penalty_order_irrelevant_witness :
  apply_repetition_penalty [F32.one; F32.zero] [1; 0; 1]%Z Tiny.f1_1 =
  apply_repetition_penalty [F32.one; F32.zero] [1; 1; 0]%Z Tiny.f1_1.
Proof.
  apply (repetition_penalty_order_irrelevant [F32.one; F32.zero]
           [1; 0; 1]%Z [1; 1; 0]%Z Tiny.f1_1).
  apply perm_skip, perm_swap.
Defined.

Lemma argmax_shortcut_takes_lowest_index_witness :
  exists i p,
    @sample_token scripted_libm scripted_algorithm Tiny.random
      [F32.zero; F32.zero] F32.zero [] = Some (to_TokenId i, []) /\
    @softmax scripted_libm [F32.zero; F32.zero] F32.zero !! i = Some p /\
    (forall q, q ∈ @softmax scripted_libm [F32.zero; F32.zero] F32.zero ->
       F32.ltb p q = false) /\
    (forall j q, j < i ->
       @softmax scripted_libm [F32.zero; F32.zero] F32.zero !! j = Some q ->
       F32.ltb q p = true).
Proof.
  apply (@argmax_shortcut_takes_lowest_index scripted_libm scripted_algorithm
           Tiny.random [F32.zero; F32.zero] F32.zero [] 0).
  - reflexivity.
  - reflexivity.
  - vm_compute. repeat constructor; discriminate.
Defined.

Lemma emitted_tokens_are_valid_witness :
  Forall (fun ev =>
            (0 <= ev.1 < 2)%Z /\
            None <> Some ev.1 /\
            ev.2 = decode (Tiny.letters None) [ev.1])
         (emitted Tiny.after_one_token).
Proof.
  apply (@emitted_tokens_are_valid scripted_libm scripted_algorithm
           scripted_sort_laws Tiny.random lp64_vector (Tiny.model None)
           (list string)
           (Impl_new (Tiny.model None)) "Hi" Tiny.collect []
           (Tiny.cfg 1 F32.one f0_9) (Tiny.device [7; 1; 1]%Z)
           Exhausted Tiny.after_one_token).
  - simpl. lia.
  - reflexivity.
Defined.


Lemma first_refusal_cancels_witness :
  @generate_with_callback scripted_libm scripted_algorithm Tiny.random
    lp64_vector
    (Tiny.model None) (list string) (Impl_new (Tiny.model None)) "Hi"
    Examples.refuse [] (Tiny.cfg 3 F32.one f0_9) (Tiny.device [7; 1; 1]%Z) =
    Returns (Cancelled, Examples.cancelled) /\
  length (emitted Examples.cancelled) = 1.
Proof.
  assert (Hrun :
    @generate_with_callback scripted_libm scripted_algorithm Tiny.random
      lp64_vector
      (Tiny.model None) (list string) (Impl_new (Tiny.model None)) "Hi"
      Examples.refuse [] (Tiny.cfg 3 F32.one f0_9) (Tiny.device [7; 1; 1]%Z) =
    Returns (Cancelled, Examples.cancelled)) by reflexivity.
  split; [exact Hrun|].
  destruct (@first_refusal_cancels scripted_libm scripted_algorithm
              Tiny.random lp64_vector (Tiny.model None) (list string)
              (Impl_new (Tiny.model None)) "Hi" Examples.refuse []
              (Tiny.cfg 3 F32.one f0_9) (Tiny.device [7; 1; 1]%Z)
              Cancelled Examples.cancelled)
    as [[Hexit _]|(_ & token & Hemitted & _)].
  - intros token text. reflexivity.
  - reflexivity.
  - exact Hrun.
  - discriminate Hexit.
  - now rewrite Hemitted.
Defined.

Lemma cache_is_reused_witness :
  key_cache_ (engine Examples.second_call) = [[F32.zero; F32.zero]] /\
  value_cache_ (engine Examples.second_call) = [[F32.zero; F32.zero]].
Proof.
  destruct (@cache_is_reused scripted_libm scripted_algorithm Tiny.random
              lp64_vector (Tiny.model None) (list string) (list string)
              (Impl_new (Tiny.model None)) "Hi" "Hi"
              Tiny.collect [] Tiny.collect []
              (Tiny.cfg 1 F32.one f0_9) (Tiny.cfg 2 F32.one f0_9)
              (Tiny.device [7; 1; 1]%Z) (Tiny.device [7; 1; 1; 1]%Z)
              Exhausted Exhausted Tiny.after_one_token Examples.second_call)
    as (_ & Hkey & Hvalue).
  - reflexivity.
  - reflexivity.
  - reflexivity.
  - split; [exact Hkey|exact Hvalue].
Defined.

Lemma extension_decides_format_witness :
  detect_format (fun _ => None) "dir/model.GgUf" = Ok "gguf"%string.
Proof.
  apply (extension_decides_format (fun _ => None) "dir/model" "GgUf" "gguf").
  - reflexivity.
  - reflexivity.
  - right. left. reflexivity.
Defined.

Lemma gguf_detection_witness :
  detect_format (fun _ => Some "GGUF1234"%string) "model.bin" =
    Ok "gguf"%string /\
  detect_format (fun _ => Some "GGUF123"%string) "model.bin" <>
    Ok "gguf"%string.
Proof.
  split.
  - apply (gguf_detection (fun _ => Some "GGUF1234"%string) "model.bin").
    right. split; [reflexivity|]. exists "1234"%string.
    split; [reflexivity|]. simpl. lia.
  - intros Hgguf.
    apply (gguf_detection (fun _ => Some "GGUF123"%string) "model.bin")
      in Hgguf as [Hext|[_ (rest & Hfile & Hlen)]]; [discriminate|].
    injection Hfile as Hfile. apply (f_equal String.length) in Hfile.
    rewrite length_string_app in Hfile. simpl in Hfile. lia.
Defined.

Lemma Model_new_outcomes_witness :
  Model_new true (fun _ => None) "model.gguf" =
    Throw (runtime_error "GGUF model loading not yet implemented") /\
  Model_new true (fun _ => Some "AMBEE"%string) "model" =
    Ok (load_amb_model true "model").
Proof.
  split.
  - apply (Model_new_outcomes true (fun _ => None) "model.gguf").
    left. split; reflexivity.
  - apply (Model_new_outcomes true (fun _ => Some "AMBEE"%string) "model").
    split; reflexivity.
Defined.

Lemma amb_embedding_present signed path :
  has_tensor (load_amb_model signed path) "transformer.wte.weight" = true.
Proof.
  unfold has_tensor. apply bool_decide_eq_true.
  rewrite <- elem_of_dom, dom_amb_weights.
  rewrite elem_of_list_to_set, list_elem_of_In.
  now left.
Qed.

Lemma get_tensor_of_loaded_model_witness :
  exists t,
    get_tensor (load_amb_model true "model") "transformer.wte.weight" = Ok t /\
    Tensor.name t = "transformer.wte.weight"%string /\
    Tensor.data_type t = DataType.FP32 /\
    N.of_nat (length (Tensor.data t)) =
      (4 * element_count (Tensor.shape t))%N /\
    Forall (fun b => b = Byte.x00) (Tensor.data t).
Proof.
  apply (get_tensor_of_loaded_model true "model" "transformer.wte.weight").
  apply amb_embedding_present.
Defined.

Lemma tensors_of_loaded_model_witness :
  has_tensor (load_amb_model true "model")
             "transformer.h.23.attn.c_attn.bias" = true /\
  has_tensor (load_amb_model true "model")
             "transformer.h.24.attn.c_attn.bias" = false.
Proof.
  destruct (tensors_of_loaded_model true "model"
              "transformer.h.23.attn.c_attn.bias") as [Hin _].
  destruct (tensors_of_loaded_model true "model"
              "transformer.h.24.attn.c_attn.bias") as [Hout _].
  split.
  - apply Hin. right. exists 23. split; [lia|]. right. reflexivity.
  - destruct (has_tensor _ "transformer.h.24.attn.c_attn.bias");
      [|reflexivity].
    exfalso. destruct Hout as [Hout _].
    destruct (Hout eq_refl) as [Hemb|(i & Hi & Hname)]; [discriminate|].
    assert (Hnames : In "transformer.h.24.attn.c_attn.bias"%string
                        (flat_map layer_names (seq 0 24))).
    { apply in_flat_map. exists i. split; [apply in_seq; lia|].
      destruct Hname as [->| ->]; [left|right; left]; reflexivity. }
    vm_compute in Hnames.
    repeat (destruct Hnames as [Heq|Hnames]; [discriminate Heq|]).
    exact Hnames.
Defined.

Lemma generate_decodes_final_tokens_witness :
  @generate scripted_libm scripted_algorithm Tiny.random lp64_vector
    Examples.dummy_tiny
    (Impl_new Examples.dummy_tiny) "Hi" (Tiny.cfg 1 F32.one f0_9)
    (Tiny.device [7; 1; 1]%Z) =
  Returns (decode (DummyTokenizer true) [72; 105; 1]%Z, Examples.fresh_engine).
Proof.
  apply (@generate_decodes_final_tokens scripted_libm scripted_algorithm
           Tiny.random lp64_vector Examples.dummy_tiny (dummy_decode_app true)
           (Impl_new Examples.dummy_tiny) "Hi" (Tiny.cfg 1 F32.one f0_9)
           (Tiny.device [7; 1; 1]%Z) Exhausted Examples.dummy_call).
  - reflexivity.
  - reflexivity.
Defined.

(** ** The callback *)

Lemma answers_app {CB : Type} (callback : TokenCallback CB) events1 :
  forall s events2,
    answers callback s (events1 ++ events2) =
    answers callback s events1 ++
    answers callback (state_after callback s events1) events2.
Proof.
  induction events1 as [|ev events1 IH]; intros s events2; [reflexivity|].
  simpl. now rewrite IH.
Qed.

Section Callback.
Context `{Libm, StdAlgorithm, StdRandom, StdVector}.
Variable model_ : Model.

Lemma decode_loop_callback {CB : Type} (cfg : GenerationConfig)
    (callback : TokenCallback CB) :
  forall remaining st w exit st',
    decode_loop model_ cfg callback remaining st w = Returns (exit, st') ->
    exists new,
      emitted st' = emitted st ++ new /\
      callback_state st' = state_after callback (callback_state st) new /\
      answers callback (callback_state st) new =
        match exit with
        | Cancelled => replicate (length new - 1) true ++ [false]
        | _ => replicate (length new) true
        end.
Proof.
  induction remaining as [|remaining IH]; intros st w exit st'.
  - simpl. intros [= <- <-]. exists []. now rewrite app_nil_r.
  - cbn [decode_loop].
    destruct (sample_token _ _ _) as [[next_token gen']|]; [|discriminate].
    destruct (is_eos model_ next_token).
    { intros [= <- <-]. exists []. simpl. now rewrite app_nil_r. }
    destruct (process_single_token _ _ _ _ _) as [[engine' w']|ex];
      [|discriminate].
    destruct (callback _ _ _) as [continue cb'] eqn:Hcb.
    destruct continue.
    + intros Hrun. apply IH in Hrun as (new & He & Hs & Ha).
      simpl in He, Hs, Ha.
      exists ((next_token, decode (tokenizer model_) [next_token]) :: new).
      rewrite He, <- app_assoc. split; [reflexivity|].
      unfold state_after in *. simpl. rewrite Hcb. simpl.
      split; [exact Hs|]. rewrite Ha.
      destruct exit; try reflexivity.
      destruct new as [|ev new]; [discriminate Ha|]. simpl.
      now rewrite Nat.sub_0_r.
    + intros [= <- <-].
      exists [(next_token, decode (tokenizer model_) [next_token])].
      simpl. unfold state_after. simpl. now rewrite Hcb.
Qed.

(** [X16] The callback is invoked once per emitted token, in the order of
    emission, each time in the state its previous invocation returned;
    the state the call ends with is the one its last invocation
    returned.  Every invocation asked to continue, except the last one
    when the loop was left through the [break] of line 100. *)
Theorem callback_is_driven_in_order {CB : Type} (e : Impl) (prompt : string)
    (callback : TokenCallback CB) (cb0 : CB) (cfg : GenerationConfig)
    (w : Entropy) (exit : Exit) (st : Decoding CB) :
  generate_with_callback model_ e prompt callback cb0 cfg w =
    Returns (exit, st) ->
  callback_state st = state_after callback cb0 (emitted st) /\
  answers callback cb0 (emitted st) =
    match exit with
    | Cancelled => replicate (length (emitted st) - 1) true ++ [false]
    | _ => replicate (length (emitted st)) true
    end.
Proof.
  unfold generate_with_callback.
  destruct (prepare_cache model_ e cfg) as [e0|ex]; [|discriminate].
  destruct (random_device w) as [seed w1].
  destruct (process_tokens _ _ _ _) as [[e1 w2]|ex]; [|discriminate].
  intros Hrun. apply decode_loop_callback in Hrun as (new & He & Hs & Ha).
  simpl in He, Hs, Ha. subst new. now split.
Qed.
End Callback.

Lemma callback_is_driven_in_order_witness :
  callback_state Examples.cancelled =
    state_after Examples.refuse [] (emitted Examples.cancelled) /\
  answers Examples.refuse [] (emitted Examples.cancelled) = [false].
Proof.
  apply (@callback_is_driven_in_order scripted_libm scripted_algorithm
           Tiny.random lp64_vector (Tiny.model None) (list string)
           (Impl_new (Tiny.model None)) "Hi" Examples.refuse []
           (Tiny.cfg 3 F32.one f0_9) (Tiny.device [7; 1; 1]%Z)
           Cancelled Examples.cancelled).
  reflexivity.
Defined.

(** ** A nucleus of one token *)

Section SingleTokenNucleus.
Context `{Libm, StdAlgorithm, StdRandom}.

(** [X17] When the first sorted index alone reaches [top_p], the nucleus
    is that one token and [sample_token] returns it whatever the random
    engine draws: the draw is made, and both the scan and the fallback
    give the same index. *)
Theorem single_token_nucleus (logits : list F32.float) (top_p : F32.float)
    (gen : mt19937) (imax a : nat) :
  max_element logits = Some imax ->
  F32.ltb top_p F32.lit_1e_6 = false ->
  let probs := softmax logits (logits !!! imax) in
  sorted_indices probs !! 0 = Some a ->
  F32.geb (F32.add F32.zero (probs !!! a)) top_p = true ->
  find_cutoff probs top_p (sorted_indices probs) = 0 /\
  sample_token logits top_p gen =
    Some (to_TokenId a,
          (uniform_real_distribution F32.zero
             (F32.add F32.zero (probs !!! a)) gen).2).
Proof.
  intros Hmax Hp probs Ha Hreach.
  destruct (sorted_indices probs) as [|a' rest] eqn:Hidx; [discriminate|].
  simpl in Ha. injection Ha as ->.
  assert (Hcut : find_cutoff probs top_p (a :: rest) = 0).
  { unfold find_cutoff. cbn [cutoff_scan]. now rewrite Hreach. }
  split; [exact Hcut|].
  unfold sample_token. rewrite Hmax, Hp. fold probs. rewrite Hidx, Hcut.
  unfold prefix_sum. cbn [take firstn fold_left].
  destruct (uniform_real_distribution _ _ gen) as [r gen'].
  unfold nucleus_pick. cbn [take firstn cdf_scan].
  now destruct (F32.leb r (F32.add F32.zero (probs !!! a))).
Qed.
End SingleTokenNucleus.

Lemma single_token_nucleus_witness :
  @sample_token scripted_libm scripted_algorithm Tiny.random
    [F32.one; F32.zero] f0_5 [f0_9] = Some (0%Z, []) /\
  @sample_token scripted_libm scripted_algorithm Tiny.random
    [F32.one; F32.zero] f0_5 [f0_5] = Some (0%Z, []).
Proof.
  split.
  - apply (@single_token_nucleus scripted_libm scripted_algorithm Tiny.random
             [F32.one; F32.zero] f0_5 [f0_9] 0 0); reflexivity.
  - apply (@single_token_nucleus scripted_libm scripted_algorithm Tiny.random
             [F32.one; F32.zero] f0_5 [f0_5] 0 0); reflexivity.
Defined.
